(** * openchamber UI components: keyboard-inset heuristic and branch picker

  A shallow embedding of the logic of two React components,

  - [packages/ui/src/components/layout/MainLayout.tsx]: the effect that
    tracks the soft-keyboard inset from visual-viewport and focus events;
  - [packages/ui/src/components/session/BranchPickerDialog.tsx]: the
    per-project branch/worktree load state, the worktree-creation action
    and the branch filter,

  followed by the properties proved about them.  The closure variables of
  each effect become the fields of a state record, every callback becomes
  a function from state to state, and the browser values a callback reads
  (viewport, focused element, promise outcomes) become its arguments. *)

From Stdlib Require Import ZArith QArith Qround Lqa Ascii String Lia.
From stdpp Require Import base list gmap sets.

Local Open Scope Z_scope.

(* ===================================================================== *)
(** * JavaScript values used by both components *)
(* ===================================================================== *)

Module JS.

(** A JavaScript string is a sequence of UTF-16 code units. *)
Abbreviation jsstring := (list N).

(** String literals of the source, written as Rocq strings. *)
Definition lit (s : string) : jsstring :=
  List.map N_of_ascii (list_ascii_of_string s).

(** [Boolean(s)] for a string: the empty string is falsy. *)
Definition truthy (s : jsstring) : bool :=
  match s with
  | [] => false
  | _ :: _ => true
  end.

(** [Boolean(x)] for [x : string | null | undefined]. *)
Definition truthy_opt (x : option jsstring) : bool :=
  match x with
  | Some s => truthy s
  | None => false
  end.

(** Strict equality [a === b] on strings. *)
Definition streq (a b : jsstring) : bool := bool_decide (a = b).

(** ECMAScript WhiteSpace and LineTerminator code units, the characters
    removed by [String.prototype.trim]. *)
Definition isWhiteSpace (c : N) : bool :=
  ((9 <=? c) && (c <=? 13) || (c =? 32) || (c =? 160) || (c =? 5760)
   || (8192 <=? c) && (c <=? 8202) || (c =? 8232) || (c =? 8233)
   || (c =? 8239) || (c =? 8287) || (c =? 12288) || (c =? 65279))%N.

Fixpoint trimStart (s : jsstring) : jsstring :=
  match s with
  | [] => []
  | c :: s' => if isWhiteSpace c then trimStart s' else s
  end.

Definition trimEnd (s : jsstring) : jsstring :=
  List.rev (trimStart (List.rev s)).

(** [s.trim()] *)
Definition trim (s : jsstring) : jsstring := trimEnd (trimStart s).

(** [s.startsWith(p)] *)
Fixpoint startsWith (s p : jsstring) : bool :=
  match p, s with
  | [], _ => true
  | _ :: _, [] => false
  | c :: p', d :: s' => (c =? d)%N && startsWith s' p'
  end.

(** [s.includes(sub)]: [sub] occurs in [s] at some position. *)
Fixpoint includes (s sub : jsstring) : bool :=
  startsWith s sub
  || match s with
     | [] => false
     | _ :: s' => includes s' sub
     end.

(** [Math.round] on a finite number: the nearest integer, ties towards
    plus infinity. *)
Definition Math_round (x : Q) : Z := Qfloor (x + (1 # 2))%Q.

(** The Basic Latin part of [String.prototype.toLowerCase]; the two agree
    on every string made of code units below 128.  Used to run the branch
    filter on concrete input; the filter itself is defined over an
    arbitrary lower-casing function. *)
Definition toLowerCaseBasicLatin (s : jsstring) : jsstring :=
  List.map (fun c => if (65 <=? c)%N && (c <=? 90)%N then (c + 32)%N else c) s.

End JS.

Import JS.

(* ===================================================================== *)
(** * MainLayout.tsx: the keyboard-inset effect *)
(* ===================================================================== *)

Module MainLayout.

(** What the effect reads of a DOM element. *)
Record Element := {
  tagName : jsstring;
  isContentEditable : bool
}.

(** [window.visualViewport]; its dimensions are fractional CSS pixels. *)
Record VisualViewport := {
  vv_height : Q;
  vv_offsetTop : Q
}.

(** The browser values read by one run of [updateVisualViewport]. *)
Record Dom := {
  visualViewport : option VisualViewport;   (* window.visualViewport *)
  innerHeight : Z;                          (* window.innerHeight *)
  clientHeight : Z;                         (* root.clientHeight *)
  activeElement : option Element            (* document.activeElement *)
}.

(** The three [let] variables of the effect, and the two custom
    properties it writes on the root element (in px; [None] while a
    property has not been written). *)
Record KeyboardState := {
  stickyKeyboardInset : Z;
  ignoreOpenUntilZero : bool;
  previousHeight : Z;
  oc_keyboard_inset : option Z;             (* --oc-keyboard-inset *)
  oc_visual_viewport_offset_top : option Z  (* --oc-visual-viewport-offset-top *)
}.

Definition initialState : KeyboardState := {|
  stickyKeyboardInset := 0;
  ignoreOpenUntilZero := false;
  previousHeight := 0;
  oc_keyboard_inset := None;
  oc_visual_viewport_offset_top := None
|}.

(** [tagName === 'INPUT' || tagName === 'TEXTAREA' || tagName === 'SELECT']
    where [tagName] is [undefined] for an absent element. *)
Definition isInput (tag : option jsstring) : bool :=
  match tag with
  | None => false
  | Some t => streq t (lit "INPUT") || streq t (lit "TEXTAREA")
              || streq t (lit "SELECT")
  end.

(** [isInput || Boolean(el?.isContentEditable)], the test shared by the
    update and by both focus handlers. *)
Definition isTextElement (el : option Element) : bool :=
  isInput (tagName <$> el)
  || match el with
     | Some e => isContentEditable e
     | None => false
     end.

(** The local constants of [updateVisualViewport], as functions of the
    values read from the browser. *)
Definition height (d : Dom) : Z :=
  match visualViewport d with
  | Some v => Math_round (vv_height v)
  | None => innerHeight d
  end.

Definition offsetTop (d : Dom) : Z :=
  match visualViewport d with
  | Some v => Z.max 0 (Math_round (vv_offsetTop v))
  | None => 0
  end.

Definition isTextTarget (d : Dom) : bool := isTextElement (activeElement d).

(** [Math.round(root.clientHeight || window.innerHeight)]; both operands
    are integers. *)
Definition layoutHeight (d : Dom) : Z :=
  if clientHeight d =? 0 then innerHeight d else clientHeight d.

Definition viewportSum (d : Dom) : Z := height d + offsetTop d.

Definition rawInset (d : Dom) : Z := Z.max 0 (layoutHeight d - viewportSum d).

Definition openThreshold (d : Dom) : Z := if isTextTarget d then 120 else 180.

Definition measuredInset (d : Dom) : Z :=
  if rawInset d >=? openThreshold d then rawInset d else 0.

(** [!isTextTarget && height > previousHeight + 6] *)
Definition closingByHeight (d : Dom) (s : KeyboardState) : bool :=
  negb (isTextTarget d) && (height d >? previousHeight s + 6).

(** Assignments to the closure variables and to the root style. *)
Definition set_sticky (v : Z) (s : KeyboardState) : KeyboardState := {|
  stickyKeyboardInset := v;
  ignoreOpenUntilZero := ignoreOpenUntilZero s;
  previousHeight := previousHeight s;
  oc_keyboard_inset := oc_keyboard_inset s;
  oc_visual_viewport_offset_top := oc_visual_viewport_offset_top s
|}.

Definition set_ignore (b : bool) (s : KeyboardState) : KeyboardState := {|
  stickyKeyboardInset := stickyKeyboardInset s;
  ignoreOpenUntilZero := b;
  previousHeight := previousHeight s;
  oc_keyboard_inset := oc_keyboard_inset s;
  oc_visual_viewport_offset_top := oc_visual_viewport_offset_top s
|}.

Definition set_previousHeight (h : Z) (s : KeyboardState) : KeyboardState := {|
  stickyKeyboardInset := stickyKeyboardInset s;
  ignoreOpenUntilZero := ignoreOpenUntilZero s;
  previousHeight := h;
  oc_keyboard_inset := oc_keyboard_inset s;
  oc_visual_viewport_offset_top := oc_visual_viewport_offset_top s
|}.

Definition publish_keyboard_inset (px : Z) (s : KeyboardState) : KeyboardState := {|
  stickyKeyboardInset := stickyKeyboardInset s;
  ignoreOpenUntilZero := ignoreOpenUntilZero s;
  previousHeight := previousHeight s;
  oc_keyboard_inset := Some px;
  oc_visual_viewport_offset_top := oc_visual_viewport_offset_top s
|}.

Definition publish_offset_top (px : Z) (s : KeyboardState) : KeyboardState := {|
  stickyKeyboardInset := stickyKeyboardInset s;
  ignoreOpenUntilZero := ignoreOpenUntilZero s;
  previousHeight := previousHeight s;
  oc_keyboard_inset := oc_keyboard_inset s;
  oc_visual_viewport_offset_top := Some px
|}.

(** [forceKeyboardClosed] *)
Definition forceKeyboardClosed (s : KeyboardState) : KeyboardState :=
  publish_keyboard_inset 0 (set_ignore true (set_sticky 0 s)).

(** The three-way branch of [updateVisualViewport] on the sticky state
    (lines 136-161). *)
Definition decide_inset (d : Dom) (s : KeyboardState) : KeyboardState :=
  if ignoreOpenUntilZero s then
    set_sticky 0 (if measuredInset d =? 0 then set_ignore false s else s)
  else if stickyKeyboardInset s =? 0 then
    if (measuredInset d >? 0) && isTextTarget d
    then set_sticky (measuredInset d) s
    else s
  else
    if measuredInset d =? 0 then set_sticky 0 s
    else if closingByHeight d s then forceKeyboardClosed s
    else if (measuredInset d >? 0) && isTextTarget d
         then set_sticky (measuredInset d) s
    else if measuredInset d >? stickyKeyboardInset s
         then set_sticky (measuredInset d) s
    else s.

(** [updateVisualViewport]: the offset is published, the branch above is
    taken, the resulting inset is published and [previousHeight] is
    updated.  The scroll lock that follows (lines 166-175) touches neither
    the closure variables nor the custom properties and is left out. *)
Definition updateVisualViewport (d : Dom) (s : KeyboardState) : KeyboardState :=
  let s1 := publish_offset_top (offsetTop d) s in
  let s2 := decide_inset d s1 in
  let s3 := publish_keyboard_inset (stickyKeyboardInset s2) s2 in
  set_previousHeight (height d) s3.

(** [handleFocusIn]: [target] is [event.target], [d] what the update it
    triggers reads. *)
Definition handleFocusIn (target : option Element) (d : Dom)
    (s : KeyboardState) : KeyboardState :=
  match target with
  | None => s
  | Some _ =>
      updateVisualViewport d
        (if isTextElement target then set_ignore false s else s)
  end.

(** [handleFocusOut]: [target] is [event.target], [related] is
    [event.relatedTarget]. *)
Definition handleFocusOut (target related : option Element)
    (s : KeyboardState) : KeyboardState :=
  match target with
  | None => s
  | Some _ =>
      if isTextElement target then
        if isTextElement related then s else forceKeyboardClosed s
      else s
  end.

(** The events the effect listens to.  Viewport resize and scroll, window
    resize and orientation change all run [updateVisualViewport], as does
    the call made when the effect is mounted. *)
Inductive Event :=
| ViewportUpdate (d : Dom)
| FocusIn (target : option Element) (d : Dom)
| FocusOut (target related : option Element).

Definition step (s : KeyboardState) (e : Event) : KeyboardState :=
  match e with
  | ViewportUpdate d => updateVisualViewport d s
  | FocusIn target d => handleFocusIn target d s
  | FocusOut target related => handleFocusOut target related s
  end.

(** The state after a sequence of events, oldest first. *)
Definition run (evs : list Event) (s : KeyboardState) : KeyboardState :=
  fold_left step evs s.

(** ** The update in the words of the specification

    Step 1 of the specified algorithm, over the layout height, the viewport
    height and the viewport offset the update works with: the inset is
    max(0, layout height - (viewport height + viewport offset)), zeroed
    below 120px when a text input (input, textarea, select or
    content-editable element) is focused and below 180px otherwise. *)
Definition spec_textInputFocused (el : option Element) : bool :=
  match el with
  | None => false
  | Some e =>
      bool_decide (tagName e ∈ [lit "INPUT"; lit "TEXTAREA"; lit "SELECT"])
      || isContentEditable e
  end.

Definition spec_threshold (textInputFocused : bool) : Z :=
  if textInputFocused then 120 else 180.

Definition spec_measuredInset (layout viewportHeight viewportOffset : Z)
    (textInputFocused : bool) : Z :=
  let inset := Z.max 0 (layout - (viewportHeight + viewportOffset)) in
  if inset <? spec_threshold textInputFocused then 0 else inset.

(** An update whose raw inset is below the threshold that applies to it. *)
Definition belowThreshold (d : Dom) : Prop := rawInset d < openThreshold d.

(** The ways in which an event may lower a positive sticky inset: a
    focus-out that force-closes, an update that measures 0, an update that
    closes by height, or an update under a focused text input, which
    adopts the measured inset. *)
Definition lowering_allowed (s : KeyboardState) (e : Event) : Prop :=
  match e with
  | FocusOut target related =>
      isTextElement target = true ∧ isTextElement related = false
  | FocusIn None _ => False
  | ViewportUpdate d | FocusIn (Some _) d =>
      measuredInset d = 0
      ∨ closingByHeight d s = true
      ∨ (isTextTarget d = true
         ∧ 0 < measuredInset d
         ∧ stickyKeyboardInset (step s e) = measuredInset d)
  end.

(** The invariant of the effect: the sticky inset is never negative and
    the ignore flag is only set while the sticky inset is 0. *)
Definition consistent (s : KeyboardState) : Prop :=
  0 ≤ stickyKeyboardInset s
  ∧ (ignoreOpenUntilZero s = true → stickyKeyboardInset s = 0).

(** ** Concrete readings used in the examples below *)

Definition inputElement : Element :=
  {| tagName := lit "INPUT"; isContentEditable := false |}.

Definition buttonElement : Element :=
  {| tagName := lit "BUTTON"; isContentEditable := false |}.

(** A browser with a visual viewport of the given height at offset 0, a
    layout of the given height, and the given focused element. *)
Definition reading (viewportHeight : Q) (layout : Z)
    (focused : option Element) : Dom := {|
  visualViewport := Some {| vv_height := viewportHeight; vv_offsetTop := 0 |};
  innerHeight := layout;
  clientHeight := layout;
  activeElement := focused
|}.

(** ** The measured inset over the raw readings *)

(** [n] is the integer nearest to [x], the upper one at a tie: the value
    of [Math.round(x)]. *)
Definition nearest (n : Z) (x : Q) : Prop :=
  (inject_Z n - (1 # 2) <= x)%Q ∧ (x < inject_Z n + (1 # 2))%Q.

(** Step 1 of the specified algorithm read over the values the browser
    reports, fractional height and signed offset included:
    max(0, layout height - (viewport height + viewport offset)), zeroed
    below the threshold. *)
Definition spec_measuredInset_unrounded (layout : Z)
    (viewportHeight viewportOffset : Q) (textInputFocused : bool) : Q :=
  let gap := (inject_Z layout - (viewportHeight + viewportOffset))%Q in
  let inset := if Qle_bool 0 gap then gap else 0%Q in
  if Qle_bool (inject_Z (spec_threshold textInputFocused)) inset
  then inset else 0%Q.

Definition spec_measuredInset_of_raw (d : Dom) : Q :=
  match visualViewport d with
  | Some v =>
      spec_measuredInset_unrounded (layoutHeight d) (vv_height v)
        (vv_offsetTop v) (spec_textInputFocused (activeElement d))
  | None =>
      spec_measuredInset_unrounded (layoutHeight d)
        (inject_Z (innerHeight d)) 0 (spec_textInputFocused (activeElement d))
  end.

(** A viewport of fractional height 680.4 under a focused input, and a
    viewport scrolled 50px above the layout with nothing focused. *)
Definition fractionalReading : Dom :=
  reading (3402 # 5) 800 (Some inputElement).

Definition overscrolledReading : Dom := {|
  visualViewport := Some {| vv_height := 600; vv_offsetTop := (-50 # 1) |};
  innerHeight := 800;
  clientHeight := 800;
  activeElement := None
|}.

End MainLayout.

(* ===================================================================== *)
(** * BranchPickerDialog.tsx: load state, worktree creation, branch filter *)
(* ===================================================================== *)

Module BranchPickerDialog.

Record Project := {
  id : jsstring;
  path : jsstring;
  normalizedPath : jsstring;
  label : option jsstring
}.

(** Modelled from the spec: the declarations of [GitBranch] and
    [GitWorktreeInfo] ([@/lib/api/types]) are not part of the sources.  A
    branch listing is a mapping from branch name to branch metadata
    (current flag, commit hash, ahead/behind counts) plus an ordered list
    of all branch names; a worktree carries the branch it has checked out,
    which the component treats as possibly absent or empty. *)
Record BranchDetails := {
  current : bool;
  commit : jsstring;
  ahead : option Z;
  behind : option Z
}.

Record GitBranch := {
  gb_all : list jsstring;
  gb_branches : gmap jsstring BranchDetails
}.

Record GitWorktreeInfo := {
  wt_path : jsstring;
  wt_branch : option jsstring
}.

Record ProjectBranchData := {
  branches : option GitBranch;
  worktrees : list GitWorktreeInfo;
  loading : bool;
  error : option jsstring
}.

(** The four [useState] cells of the component. *)
Record State := {
  searchQuery : jsstring;
  projectData : gmap jsstring ProjectBranchData;
  expandedProjects : gset jsstring;
  creatingWorktree : option jsstring
}.

Definition initialState : State := {|
  searchQuery := [];
  projectData := ∅;
  expandedProjects := ∅;
  creatingWorktree := None
|}.

Definition setSearchQuery (q : jsstring) (st : State) : State := {|
  searchQuery := q;
  projectData := projectData st;
  expandedProjects := expandedProjects st;
  creatingWorktree := creatingWorktree st
|}.

(** [setProjectData(prev => ...)] *)
Definition setProjectData
    (f : gmap jsstring ProjectBranchData → gmap jsstring ProjectBranchData)
    (st : State) : State := {|
  searchQuery := searchQuery st;
  projectData := f (projectData st);
  expandedProjects := expandedProjects st;
  creatingWorktree := creatingWorktree st
|}.

(** [setExpandedProjects(prev => ...)] *)
Definition setExpandedProjects (f : gset jsstring → gset jsstring)
    (st : State) : State := {|
  searchQuery := searchQuery st;
  projectData := projectData st;
  expandedProjects := f (expandedProjects st);
  creatingWorktree := creatingWorktree st
|}.

Definition setCreatingWorktree (k : option jsstring) (st : State) : State := {|
  searchQuery := searchQuery st;
  projectData := projectData st;
  expandedProjects := expandedProjects st;
  creatingWorktree := k
|}.

(** A value caught by a [catch] clause: an [Error] instance with its
    message, or anything else. *)
Inductive Thrown :=
| ErrorInstance (message : jsstring)
| NotAnError.

(** ** The load effect (lines 56-98) *)

(** The three functional updates passed to [setProjectData]. *)
Definition markLoading (pid : jsstring)
    (prev : gmap jsstring ProjectBranchData) : gmap jsstring ProjectBranchData :=
  <[pid := {| branches := None; worktrees := []; loading := true;
              error := None |}]> prev.

Definition markLoaded (pid : jsstring) (b : GitBranch)
    (w : list GitWorktreeInfo)
    (prev : gmap jsstring ProjectBranchData) : gmap jsstring ProjectBranchData :=
  <[pid := {| branches := Some b; worktrees := w; loading := false;
              error := None |}]> prev.

(** [err instanceof Error ? err.message : 'Failed to load'] *)
Definition errorMessage (err : Thrown) : jsstring :=
  match err with
  | ErrorInstance message => message
  | NotAnError => lit "Failed to load"
  end.

Definition markFailed (pid : jsstring) (err : Thrown)
    (prev : gmap jsstring ProjectBranchData) : gmap jsstring ProjectBranchData :=
  <[pid := {| branches := None; worktrees := []; loading := false;
              error := Some (errorMessage err) |}]> prev.

(** The synchronous part of the effect: the query is reset when the dialog
    is closed; otherwise the active project is expanded and every project
    is marked as loading before its two requests are awaited. *)
Definition openEffect (open : bool) (projects : list Project)
    (activeProjectId : option jsstring) (st : State) : State :=
  if negb open then setSearchQuery [] st
  else
    let st1 :=
      match List.find (fun p => bool_decide (Some (id p) = activeProjectId))
                      projects with
      | Some activeProject =>
          setExpandedProjects (fun _ => {[ id activeProject ]}) st
      | None => st
      end in
    fold_left (fun st p => setProjectData (markLoading (id p)) st) projects st1.

(** What happens to the load of one project: it is started, and later the
    joined pair of requests resolves with both results or rejects with the
    first error.  Loads of different projects interleave freely. *)
Inductive LoadEvent :=
| LoadStarted (pid : jsstring)
| LoadResolved (pid : jsstring) (b : GitBranch) (w : list GitWorktreeInfo)
| LoadRejected (pid : jsstring) (err : Thrown).

Definition applyLoad (m : gmap jsstring ProjectBranchData) (ev : LoadEvent)
    : gmap jsstring ProjectBranchData :=
  match ev with
  | LoadStarted pid => markLoading pid m
  | LoadResolved pid b w => markLoaded pid b w m
  | LoadRejected pid err => markFailed pid err m
  end.

(** The map published after a sequence of load events, oldest first. *)
Definition published (evs : list LoadEvent)
    (m : gmap jsstring ProjectBranchData) : gmap jsstring ProjectBranchData :=
  fold_left applyLoad evs m.

(** [toggleProject] *)
Definition toggleProject (projectId : jsstring) (st : State) : State :=
  setExpandedProjects
    (fun prev => if bool_decide (projectId ∈ prev)
                 then prev ∖ {[ projectId ]}
                 else prev ∪ {[ projectId ]}) st.

(** ** The worktree-creation action (lines 112-124) *)

(** Calls that leave the component. *)
Inductive Effect :=
| OnOpenChange (open : bool)
| ConsoleError (text : jsstring) (err : Thrown).

Record World := {
  component : State;
  effects : list Effect     (* oldest first *)
}.

(** How a statement completes. *)
Inductive Completion (A : Type) :=
| Normal (a : A)
| Throw (err : Thrown).

Arguments Normal {A} a.
Arguments Throw {A} err.

(** Computations over the component state that may throw. *)
Definition Eff (A : Type) : Type := World → Completion A * World.

Definition ret {A} (a : A) : Eff A := fun w => (Normal a, w).

Definition bind {A B} (m : Eff A) (k : A → Eff B) : Eff B :=
  fun w =>
    match m w with
    | (Normal a, w1) => k a w1
    | (Throw err, w1) => (Throw err, w1)
    end.

Declare Scope eff_scope.
Delimit Scope eff_scope with eff.
Notation "m1 ;;; m2" := (bind m1 (fun _ => m2))
  (at level 100, right associativity) : eff_scope.

(** [try { body } catch (err) { handler } finally { fin }] *)
Definition try_catch_finally (body : Eff unit) (handler : Thrown → Eff unit)
    (fin : Eff unit) : Eff unit :=
  fun w =>
    let '(c1, w1) := body w in
    let '(c2, w2) :=
      match c1 with
      | Normal a => (Normal a, w1)
      | Throw err => handler err w1
      end in
    match fin w2 with
    | (Normal _, w3) => (c2, w3)
    | (Throw err, w3) => (Throw err, w3)
    end.

Definition update_state (f : State → State) : Eff unit :=
  fun w => (Normal tt, {| component := f (component w); effects := effects w |}).

Definition emit (e : Effect) : Eff unit :=
  fun w => (Normal tt, {| component := component w;
                          effects := effects w ++ [e] |}).

(** [await createWorktreeSessionForBranch(path, branchName)]: the call is
    external, so its completion is an argument. *)
Definition await_createWorktreeSessionForBranch (outcome : Completion unit)
    (path branchName : jsstring) : Eff unit :=
  fun w => (outcome, w).

(** The row key [`${project.id}:${branchName}`]. *)
Definition rowKey (projectId branchName : jsstring) : jsstring :=
  projectId ++ lit ":" ++ branchName.

(** [handleCreateWorktree] *)
Definition handleCreateWorktree (outcome : Completion unit)
    (project : Project) (branchName : jsstring) : Eff unit :=
  (let key := rowKey (id project) branchName in
   update_state (setCreatingWorktree (Some key)) ;;;
   try_catch_finally
     (await_createWorktreeSessionForBranch outcome (path project) branchName ;;;
      emit (OnOpenChange false))
     (fun err => emit (ConsoleError (lit "Failed to create worktree:") err))
     (update_state (setCreatingWorktree None)))%eff.

(** ** Filtering and rendering (lines 126-135 and 156-293) *)

Section Render.

(** [String.prototype.toLowerCase], a total function on strings. *)
Variable toLowerCase : jsstring → jsstring.

(** [filterBranches] *)
Definition filterBranches (branches : list jsstring) (query : jsstring)
    : list jsstring :=
  if negb (truthy (trim query)) then branches
  else
    let lowerQuery := toLowerCase query in
    List.filter (fun b => includes (toLowerCase b) lowerQuery) branches.

(** [gitRepoProjects] *)
Definition gitRepoProjects (projects : list Project)
    (projectData : gmap jsstring ProjectBranchData) : list Project :=
  List.filter
    (fun p =>
       match projectData !! id p with
       | None => false
       | Some data =>
           negb (truthy_opt (error data))
           && (loading data || bool_decide (is_Some (branches data)))
       end)
    projects.

(** [new Set(worktrees.map(w => w.branch).filter(Boolean))] *)
Definition worktreeBranches (worktrees : list GitWorktreeInfo) : gset jsstring :=
  list_to_set
    (omap (fun x => x) (List.filter truthy_opt (List.map wt_branch worktrees))).

(** [allBranches], [filteredBranches] and [localBranches] of one project
    card; [data] is [projectData.get(project.id)]. *)
Definition allBranches (data : option ProjectBranchData) : list jsstring :=
  match data ≫= branches with
  | Some b => gb_all b
  | None => []
  end.

Definition localBranches (data : option ProjectBranchData)
    (searchQuery : jsstring) : list jsstring :=
  let worktrees := match data with Some d => worktrees d | None => [] end in
  let worktreeBranches := worktreeBranches worktrees in
  let filteredBranches := filterBranches (allBranches data) searchQuery in
  List.filter (fun b => negb (bool_decide (b ∈ worktreeBranches)))
    (List.filter (fun b => negb (startsWith b (lit "remotes/")))
       filteredBranches).

(** What is rendered for one project, as far as it depends on the load
    state. *)
Record BranchRow := {
  row_branchName : jsstring;
  row_isCurrent : bool;
  row_isCreating : bool
}.

Inductive CardBody :=
| Collapsed
| LoadingText                       (* "Loading branches..." *)
| ErrorText (text : jsstring)       (* {data.error} *)
| EmptyText (text : jsstring)       (* "No matching branches" / "No branches found" *)
| BranchRows (rows : list BranchRow).

Record ProjectCard := {
  card_key : jsstring;
  card_spinner : bool;
  card_count : option nat;          (* "{n} branches" *)
  card_body : CardBody
}.

Inductive ListArea :=
| NoRepositories                    (* "No git repositories found" *)
| Cards (cards : list ProjectCard).

Definition renderRow (st : State) (project : Project)
    (data : option ProjectBranchData) (branchName : jsstring) : BranchRow := {|
  row_branchName := branchName;
  row_isCurrent :=
    match data ≫= branches with
    | Some b =>
        match gb_branches b !! branchName with
        | Some details => current details
        | None => false
        end
    | None => false
    end;
  row_isCreating :=
    bool_decide (creatingWorktree st = Some (rowKey (id project) branchName))
|}.

Definition renderCard (st : State) (project : Project) : ProjectCard :=
  let data := projectData st !! id project in
  let isExpanded := bool_decide (id project ∈ expandedProjects st) in
  let localBranches := localBranches data (searchQuery st) in
  let data_loading := match data with Some d => loading d | None => false end in
  let data_error := data ≫= error in
  {|
    card_key := id project;
    card_spinner := data_loading;
    card_count :=
      match data ≫= branches with
      | Some _ => Some (length localBranches)
      | None => None
      end;
    card_body :=
      if negb isExpanded then Collapsed
      else if data_loading then LoadingText
      else if truthy_opt data_error
           then ErrorText (default [] data_error)
      else if (length localBranches =? 0)%nat
           then EmptyText (if truthy (searchQuery st)
                           then lit "No matching branches"
                           else lit "No branches found")
      else BranchRows (List.map (renderRow st project data) localBranches)
  |}.

(** The scrollable area of the dialog. *)
Definition render (projects : list Project) (st : State) : ListArea :=
  let gitRepoProjects := gitRepoProjects projects (projectData st) in
  if (length gitRepoProjects =? 0)%nat then NoRepositories
  else Cards (List.map (renderCard st) gitRepoProjects).

(** ** The displayed list in the words of the specification *)

(** The claim as written: a branch is displayed when its lower-cased name
    contains the lower-cased query, it is not a remote-tracking branch and
    it backs no existing worktree. *)
Definition spec_displayed (all : list jsstring) (query : jsstring)
    (backing : gset jsstring) : list jsstring :=
  List.filter
    (fun b =>
       includes (toLowerCase b) (toLowerCase query)
       && negb (startsWith b (lit "remotes/"))
       && negb (bool_decide (b ∈ backing)))
    all.

(** The same with the guard of [filterBranches]: a query that is empty or
    all whitespace matches every branch. *)
Definition blank (query : jsstring) : bool := forallb isWhiteSpace query.

Definition spec_displayed_guarded (all : list jsstring) (query : jsstring)
    (backing : gset jsstring) : list jsstring :=
  List.filter
    (fun b =>
       (blank query || includes (toLowerCase b) (toLowerCase query))
       && negb (startsWith b (lit "remotes/"))
       && negb (bool_decide (b ∈ backing)))
    all.

End Render.


(** The cards of the scrollable area. *)
Definition rendered_cards (area : ListArea) : list ProjectCard :=
  match area with
  | NoRepositories => []
  | Cards cards => cards
  end.

(** The worktrees the card of a project works with ([data?.worktrees || []]). *)
Definition dataWorktrees (data : option ProjectBranchData)
    : list GitWorktreeInfo :=
  match data with
  | Some d => worktrees d
  | None => []
  end.

(** ** The three shapes of a published load state

    Each shape records the load event it stems from, so that a success
    state is known to hold the two results of one joined pair. *)
Definition loading_shape (evs : list LoadEvent) (pid : jsstring)
    (d : ProjectBranchData) : Prop :=
  d = {| branches := None; worktrees := []; loading := true; error := None |}
  ∧ LoadStarted pid ∈ evs.

Definition success_shape (evs : list LoadEvent) (pid : jsstring)
    (d : ProjectBranchData) : Prop :=
  ∃ b w,
    d = {| branches := Some b; worktrees := w; loading := false;
           error := None |}
    ∧ LoadResolved pid b w ∈ evs.

Definition error_shape (evs : list LoadEvent) (pid : jsstring)
    (d : ProjectBranchData) : Prop :=
  ∃ err,
    d = {| branches := None; worktrees := []; loading := false;
           error := Some (errorMessage err) |}
    ∧ LoadRejected pid err ∈ evs.

Definition exactly_one (P Q R : Prop) : Prop :=
  (P ∧ ¬ Q ∧ ¬ R) ∨ (¬ P ∧ Q ∧ ¬ R) ∨ (¬ P ∧ ¬ Q ∧ R).

(** ** Concrete inputs used in the examples below *)

Definition projectA : Project := {|
  id := lit "a"; path := lit "/repos/a"; normalizedPath := lit "/repos/a";
  label := None
|}.

Definition projectB : Project := {|
  id := lit "b"; path := lit "/repos/b"; normalizedPath := lit "/repos/b";
  label := None
|}.

Definition listingA : GitBranch := {|
  gb_all := [lit "main"; lit "Feature/X"; lit "remotes/origin/main";
             lit "dev"];
  gb_branches := ∅
|}.

Definition worktreesA : list GitWorktreeInfo :=
  [ {| wt_path := lit "/repos/a-dev"; wt_branch := Some (lit "dev") |} ].

Definition loadedA : ProjectBranchData := {|
  branches := Some listingA; worktrees := worktreesA; loading := false;
  error := None
|}.

(** The state after the load of project a failed with [new Error('boom')],
    the card of a being expanded. *)
Definition failedA : State :=
  setProjectData (markFailed (lit "a") (ErrorInstance (lit "boom")))
    (openEffect true [projectA] (Some (lit "a")) initialState).

End BranchPickerDialog.

(* ===================================================================== *)
(** * MainLayout.tsx: the rest of the component *)
(* ===================================================================== *)

Module MainLayoutShell.

Import MainLayout.

(** ** Runs of the keyboard effect *)

(** An event whose reading, if it has one, finds no text input focused. *)
Definition unfocused (e : Event) : Prop :=
  match e with
  | ViewportUpdate d | FocusIn _ d => isTextTarget d = false
  | FocusOut _ _ => True
  end.

(** The states an update on reading [d] can leave behind, by the branch it
    took: ignoring a non-zero inset; closed with nothing to open on; open
    at the measured inset under a focused text input; or open at an inset
    no smaller than the measured one while nothing is focused. *)
Definition settled (d : Dom) (s : KeyboardState) : Prop :=
  (ignoreOpenUntilZero s = true ∧ stickyKeyboardInset s = 0
   ∧ measuredInset d ≠ 0)
  ∨ (ignoreOpenUntilZero s = false ∧ stickyKeyboardInset s = 0
     ∧ (measuredInset d = 0 ∨ isTextTarget d = false))
  ∨ (ignoreOpenUntilZero s = false ∧ stickyKeyboardInset s = measuredInset d
     ∧ 0 < measuredInset d ∧ isTextTarget d = true)
  ∨ (ignoreOpenUntilZero s = false ∧ stickyKeyboardInset s ≠ 0
     ∧ 0 < measuredInset d ∧ isTextTarget d = false
     ∧ measuredInset d ≤ stickyKeyboardInset s).

(** ** The debounced resize handler (lines 63-88)

    The effect keeps one closure variable, [timeoutId].  Of the browser it
    uses the timers: [setTimeout] returns an id of the browser's choosing
    and keeps the timer pending until it elapses or is cleared.  When a
    pending timer elapses is up to the browser; here any pending timer may
    elapse at any moment, and its callback calls
    [updateProportionalSidebarWidths]. *)
Record ResizeState := {
  timeoutId : option nat;       (* let timeoutId: number | undefined *)
  listening : bool;             (* the 'resize' listener is registered *)
  pendingTimers : gset nat;     (* timers set and neither elapsed nor cleared *)
  widthUpdates : nat            (* calls of updateProportionalSidebarWidths *)
}.

(** The state when the effect has run: the listener is registered and no
    timer of the effect exists. *)
Definition mountedResize : ResizeState := {|
  timeoutId := None;
  listening := true;
  pendingTimers := ∅;
  widthUpdates := 0
|}.

(** [window.clearTimeout(id)] *)
Definition clearTimeout (id : nat) (st : ResizeState) : ResizeState := {|
  timeoutId := timeoutId st;
  listening := listening st;
  pendingTimers := pendingTimers st ∖ {[ id ]};
  widthUpdates := widthUpdates st
|}.

(** [timeoutId = window.setTimeout(callback, 150)], the browser returning
    [id]. *)
Definition setTimeout_assign (id : nat) (st : ResizeState) : ResizeState := {|
  timeoutId := Some id;
  listening := listening st;
  pendingTimers := pendingTimers st ∪ {[ id ]};
  widthUpdates := widthUpdates st
|}.

(** [handleResize]; [id] is what its call of [setTimeout] returns. *)
Definition handleResize (id : nat) (st : ResizeState) : ResizeState :=
  let st1 :=
    match timeoutId st with
    | Some old => clearTimeout old st
    | None => st
    end in
  setTimeout_assign id st1.

(** The timer callback, run by the browser when timer [id] elapses. *)
Definition timerElapsed (id : nat) (st : ResizeState) : ResizeState :=
  if bool_decide (id ∈ pendingTimers st) then {|
    timeoutId := timeoutId st;
    listening := listening st;
    pendingTimers := pendingTimers st ∖ {[ id ]};
    widthUpdates := S (widthUpdates st)
  |} else st.

(** The cleanup of the effect. *)
Definition cleanupResize (st : ResizeState) : ResizeState :=
  let st1 := {|
    timeoutId := timeoutId st;
    listening := false;
    pendingTimers := pendingTimers st;
    widthUpdates := widthUpdates st
  |} in
  match timeoutId st1 with
  | Some id => clearTimeout id st1
  | None => st1
  end.

Inductive ResizeEvent :=
| WindowResize (id : nat)     (* a resize; the timer it sets gets [id] *)
| TimerElapsed (id : nat)
| Cleanup.

Definition resizeStep (st : ResizeState) (e : ResizeEvent) : ResizeState :=
  match e with
  | WindowResize id => if listening st then handleResize id st else st
  | TimerElapsed id => timerElapsed id st
  | Cleanup => cleanupResize st
  end.

Definition resizeRun (evs : list ResizeEvent) (st : ResizeState)
    : ResizeState :=
  fold_left resizeStep evs st.

(** The number of resize events in a run. *)
Definition resizes (evs : list ResizeEvent) : nat :=
  length (List.filter
            (fun e => match e with WindowResize _ => true | _ => false end)
            evs).

(** ** The main views (lines 234-342) *)

Inductive View := GitView | DiffView | TerminalView.

(** [secondaryView]: the [switch] on [activeMainTab]. *)
Definition secondaryView (activeMainTab : jsstring) : option View :=
  if streq activeMainTab (lit "git") then Some GitView
  else if streq activeMainTab (lit "diff") then Some DiffView
  else if streq activeMainTab (lit "terminal") then Some TerminalView
  else None.

Definition isChatActive (activeMainTab : jsstring) : bool :=
  streq activeMainTab (lit "chat").

Definition isSettingsActive (isSettingsDialogOpen isMobile : bool) : bool :=
  isSettingsDialogOpen && negb isMobile.

(** The [<main>] element: the chat pane is always mounted and carries the
    class [invisible] while another tab is active; the secondary view is
    mounted on top of it when there is one. *)
Record MainPane := {
  chatInvisible : bool;
  secondary : option View
}.

Definition renderMain (activeMainTab : jsstring) : MainPane := {|
  chatInvisible := negb (isChatActive activeMainTab);
  secondary := secondaryView activeMainTab
|}.

(** What the component renders under the dialogs, by layout. *)
Inductive Layout :=
| MobileLayout
    (header : bool)               (* <Header /> is rendered *)
    (contentHidden : bool)        (* the content container has class hidden *)
    (main : MainPane)
    (sessionsPanelOpen : bool)    (* open prop of MobileOverlayPanel *)
    (settingsView : bool)         (* the full-screen settings view *)
| DesktopLayout
    (sidebar : option bool)       (* <Sidebar isOpen=... />, when rendered *)
    (normalInvisible : bool)      (* header and content have class invisible *)
    (main : MainPane)
    (settingsView : bool).

Record Rendered := {
  layout : Layout;
  fixedSessionsButton : bool
}.

Definition renderLayout (isMobile isSidebarOpen isSessionSwitcherOpen
    isSettingsDialogOpen : bool) (activeMainTab : jsstring) : Rendered :=
  let isSettingsActive := isSettingsActive isSettingsDialogOpen isMobile in
  {|
    layout :=
      if isMobile then
        MobileLayout (negb isSettingsDialogOpen) isSettingsDialogOpen
          (renderMain activeMainTab) isSessionSwitcherOpen
          isSettingsDialogOpen
      else
        DesktopLayout
          (if negb isSettingsActive then Some isSidebarOpen else None)
          isSettingsActive (renderMain activeMainTab) isSettingsActive;
    fixedSessionsButton := negb isSettingsActive
  |}.

(** What a user sees of a rendering. *)
Definition mainPane (r : Rendered) : MainPane :=
  match layout r with
  | MobileLayout _ _ main _ _ => main
  | DesktopLayout _ _ main _ => main
  end.

Definition contentConcealed (r : Rendered) : bool :=
  match layout r with
  | MobileLayout _ contentHidden _ _ _ => contentHidden
  | DesktopLayout _ normalInvisible _ _ => normalInvisible
  end.

Definition settingsShown (r : Rendered) : bool :=
  match layout r with
  | MobileLayout _ _ _ _ settingsView => settingsView
  | DesktopLayout _ _ _ settingsView => settingsView
  end.

Definition headerVisible (r : Rendered) : bool :=
  match layout r with
  | MobileLayout header _ _ _ _ => header
  | DesktopLayout _ normalInvisible _ _ => negb normalInvisible
  end.

Definition chatVisible (r : Rendered) : bool :=
  negb (contentConcealed r) && negb (chatInvisible (mainPane r)).

Definition secondaryVisible (r : Rendered) : bool :=
  negb (contentConcealed r)
  && bool_decide (is_Some (secondary (mainPane r))).

End MainLayoutShell.

(* ===================================================================== *)
(** * BranchPickerDialog.tsx: the rest of the component *)
(* ===================================================================== *)

Module BranchPickerDialogParts.

Import BranchPickerDialog.

(** ** The two halves of [handleCreateWorktree]

    An async function runs up to its [await] when it is called and resumes
    when the awaited promise settles; other handlers may run in between. *)
Definition beginCreateWorktree (project : Project) (branchName : jsstring)
    : Eff unit :=
  let key := rowKey (id project) branchName in
  update_state (setCreatingWorktree (Some key)).

Definition settleCreateWorktree (outcome : Completion unit)
    (project : Project) (branchName : jsstring) : Eff unit :=
  (try_catch_finally
     (await_createWorktreeSessionForBranch outcome (path project) branchName ;;;
      emit (OnOpenChange false))
     (fun err => emit (ConsoleError (lit "Failed to create worktree:") err))
     (update_state (setCreatingWorktree None)))%eff.

(** ** Load events, by project *)

Definition eventProject (ev : LoadEvent) : jsstring :=
  match ev with
  | LoadStarted pid => pid
  | LoadResolved pid _ _ => pid
  | LoadRejected pid _ => pid
  end.

(** The state an event stores for its project. *)
Definition eventState (ev : LoadEvent) : ProjectBranchData :=
  match ev with
  | LoadStarted _ =>
      {| branches := None; worktrees := []; loading := true; error := None |}
  | LoadResolved _ b w =>
      {| branches := Some b; worktrees := w; loading := false;
         error := None |}
  | LoadRejected _ err =>
      {| branches := None; worktrees := []; loading := false;
         error := Some (errorMessage err) |}
  end.

Definition loadingState : ProjectBranchData :=
  {| branches := None; worktrees := []; loading := true; error := None |}.

(** ** The title of a project card (line 189) *)

(** [s.split(sep)] for a separator of one code unit. *)
Fixpoint split (sep : N) (s : jsstring) : list jsstring :=
  match s with
  | [] => [[]]
  | c :: s' =>
      if (c =? sep)%N then [] :: split sep s'
      else
        match split sep s' with
        | segment :: segments => (c :: segment) :: segments
        | [] => [[c]]
        end
  end.

(** [segments.join(sep)] *)
Fixpoint join (sep : N) (segments : list jsstring) : jsstring :=
  match segments with
  | [] => []
  | [segment] => segment
  | segment :: rest => segment ++ sep :: join sep rest
  end.

(** [array.pop()] as an expression: the last element, [undefined] for an
    empty array. *)
Definition pop (segments : list jsstring) : option jsstring := last segments.

(** The code unit of "/". *)
Definition slash : N := 47.

(** [project.label || project.normalizedPath.split('/').pop()
     || project.normalizedPath] *)
Definition cardTitle (project : Project) : jsstring :=
  if truthy_opt (label project) then default [] (label project)
  else
    let segment := pop (split slash (normalizedPath project)) in
    if truthy_opt segment then default [] segment
    else normalizedPath project.

(** The code unit of ":". *)
Definition colon : N := 58.

End BranchPickerDialogParts.

(* ===================================================================== *)
(** * Properties of the keyboard-inset effect *)
(* ===================================================================== *)

Module MainLayoutProofs.

Import MainLayout.

(** Turn the boolean tests of the update into arithmetic facts. *)
Ltac zify_tests :=
  repeat match goal with
  | H : (_ =? _) = true |- _ => apply Z.eqb_eq in H
  | H : (_ =? _) = false |- _ => apply Z.eqb_neq in H
  | H : (_ >? _) = true |- _ => rewrite Z.gtb_ltb in H; apply Z.ltb_lt in H
  | H : (_ >? _) = false |- _ => rewrite Z.gtb_ltb in H; apply Z.ltb_ge in H
  | H : (_ >=? _) = true |- _ => rewrite Z.geb_leb in H; apply Z.leb_le in H
  | H : (_ >=? _) = false |- _ => rewrite Z.geb_leb in H; apply Z.leb_gt in H
  | H : (_ <? _) = true |- _ => apply Z.ltb_lt in H
  | H : (_ <? _) = false |- _ => apply Z.ltb_ge in H
  | H : (_ && _) = true |- _ => apply andb_true_iff in H; destruct H
  | H : (_ && _) = false |- _ => apply andb_false_iff in H; destruct H
  | H : negb _ = true |- _ => apply negb_true_iff in H
  | H : negb _ = false |- _ => apply negb_false_iff in H
  end.

(** Open the update and split on every test it makes. *)
Ltac update_cases :=
  unfold updateVisualViewport, decide_inset, forceKeyboardClosed,
    closingByHeight, set_sticky, set_ignore, set_previousHeight,
    publish_keyboard_inset, publish_offset_top in *;
  cbn [stickyKeyboardInset ignoreOpenUntilZero previousHeight
       oc_keyboard_inset oc_visual_viewport_offset_top] in *;
  repeat match goal with
  | |- context [if ?b then _ else _] =>
      destruct b eqn:?;
      cbn [stickyKeyboardInset ignoreOpenUntilZero previousHeight
           oc_keyboard_inset oc_visual_viewport_offset_top andb negb] in *
  end;
  zify_tests.

Lemma rawInset_nonneg d : 0 ≤ rawInset d.
Proof. unfold rawInset. lia. Qed.

Lemma openThreshold_cases d :
  openThreshold d = 120 ∨ openThreshold d = 180.
Proof. unfold openThreshold. destruct (isTextTarget d); auto. Qed.

Lemma measuredInset_nonneg d : 0 ≤ measuredInset d.
Proof.
  unfold measuredInset. pose proof (rawInset_nonneg d).
  destruct (rawInset d >=? openThreshold d); lia.
Qed.

Lemma measuredInset_below d : belowThreshold d → measuredInset d = 0.
Proof.
  unfold belowThreshold, measuredInset. intros Hlt.
  destruct (rawInset d >=? openThreshold d) eqn:E; [|done].
  zify_tests. lia.
Qed.

Lemma measuredInset_zero_or_large d :
  measuredInset d = 0 ∨ (openThreshold d ≤ measuredInset d ∧ measuredInset d = rawInset d).
Proof.
  unfold measuredInset.
  destruct (rawInset d >=? openThreshold d) eqn:E; zify_tests; auto.
Qed.

(** An update that measures 0 leaves the sticky inset at 0, whatever the
    state before. *)
Lemma update_measured_zero d s :
  measuredInset d = 0 → stickyKeyboardInset (updateVisualViewport d s) = 0.
Proof. intros Hm. update_cases; lia. Qed.

(** [isTextElement] in the words of the specification. *)
Lemma isTextElement_spec el : isTextElement el = spec_textInputFocused el.
Proof.
  destruct el as [[tag editable]|]; [|done].
  unfold isTextElement, spec_textInputFocused, isInput, streq. cbn [fmap option_fmap option_map tagName isContentEditable].
  f_equal.
  repeat case_bool_decide; subst; try done; exfalso;
    repeat match goal with
    | H : _ ∈ _ :: _ |- _ => apply elem_of_cons in H; destruct H
    | H : _ ∈ [] |- _ => by apply elem_of_nil in H
    | H : ¬ _ ∈ _ |- _ => apply H; set_solver
    end; done.
Qed.

(** The invariant holds initially and every event preserves it. *)
Lemma consistent_initial : consistent initialState.
Proof. split; cbn; [lia | done]. Qed.

Lemma consistent_update d s :
  consistent s → consistent (updateVisualViewport d s).
Proof.
  intros [Hpos Hflag]. pose proof (measuredInset_nonneg d).
  split; update_cases; try lia; try done.
Qed.

Lemma consistent_step s e : consistent s → consistent (step s e).
Proof.
  intros Hs. destruct e as [d|target d|target related]; cbn [step].
  - by apply consistent_update.
  - unfold handleFocusIn. destruct target; [|done].
    apply consistent_update. destruct Hs as [Hpos Hflag].
    destruct (isTextElement _); [|done]. split; cbn; [done | congruence].
  - unfold handleFocusOut. destruct target; [|done].
    destruct (isTextElement (Some _)); [|done].
    destruct (isTextElement related); [done|].
    split; cbn; [lia | done].
Qed.

Lemma consistent_run evs s : consistent s → consistent (run evs s).
Proof.
  revert s. induction evs as [|e evs IH]; intros s Hs; [done|].
  cbn. apply IH. by apply consistent_step.
Qed.

(** ** Step 1: the measured inset *)

(** The thresholding step over the height, the offset and the layout
    height the update has computed from its readings. *)
Lemma measuredInset_thresholded (d : Dom) :
  measuredInset d
  = spec_measuredInset (layoutHeight d) (height d) (offsetTop d)
      (spec_textInputFocused (activeElement d)).
Proof.
  unfold measuredInset, spec_measuredInset, spec_threshold, openThreshold,
    rawInset, viewportSum, isTextTarget.
  rewrite <- isTextElement_spec.
  set (inset := Z.max 0 _).
  destruct (isTextElement (activeElement d));
    destruct (inset >=? _) eqn:Hge, (inset <? _) eqn:Hlt;
    zify_tests; lia || done.
Qed.

(** [Math.round] returns the nearest integer, and there is only one. *)
Lemma Math_round_nearest x : nearest (Math_round x) x.
Proof.
  unfold nearest, Math_round.
  pose proof (Qfloor_le (x + (1 # 2))) as Hle.
  pose proof (Qlt_floor (x + (1 # 2))) as Hlt.
  rewrite inject_Z_plus in Hlt. change (inject_Z 1) with 1%Q in Hlt.
  split; lra.
Qed.

Lemma nearest_unique n m x : nearest n x → nearest m x → n = m.
Proof.
  intros [Hn1 Hn2] [Hm1 Hm2].
  assert (Hnm : (inject_Z n < inject_Z (m + 1))%Q).
  { rewrite inject_Z_plus. change (inject_Z 1) with 1%Q. lra. }
  assert (Hmn : (inject_Z m < inject_Z (n + 1))%Q).
  { rewrite inject_Z_plus. change (inject_Z 1) with 1%Q. lra. }
  rewrite <- Zlt_Qlt in Hnm, Hmn. lia.
Qed.

Lemma Math_round_unique n x : nearest n x → Math_round x = n.
Proof. intros Hn. by apply (nearest_unique _ _ x), Hn; apply Math_round_nearest. Qed.

(** C4, as the code has it. For every viewport update, the measured inset
    is max(0, layout height - (viewport height + viewport offset)) when
    that quantity reaches the threshold and 0 otherwise, where the
    viewport height is the height of the visual viewport rounded to the
    nearest integer, the viewport offset is its offsetTop rounded to the
    nearest integer and then raised to 0 when negative, without a visual
    viewport the height is the window's innerHeight and the offset 0, the
    layout height is the root's clientHeight or, when that is 0, the
    window's innerHeight, and the threshold is 120px when an input,
    textarea, select or content-editable element is focused and 180px
    otherwise. *)
Theorem measuredInset_of_readings (d : Dom) (H O : Z) :
  let layout := if clientHeight d =? 0 then innerHeight d else clientHeight d in
  let threshold :=
    match activeElement d with
    | Some e =>
        if bool_decide (tagName e ∈ [lit "INPUT"; lit "TEXTAREA"; lit "SELECT"])
           || isContentEditable e
        then 120 else 180
    | None => 180
    end in
  let thresholded (inset : Z) := if inset <? threshold then 0 else inset in
  (∀ v, visualViewport d = Some v →
        nearest H (vv_height v) → nearest O (vv_offsetTop v) →
        measuredInset d
        = thresholded (Z.max 0 (layout - (H + Z.max 0 O))))
  ∧ (visualViewport d = None →
     measuredInset d = thresholded (Z.max 0 (layout - (innerHeight d + 0))))
  ∧ (∀ v, visualViewport d = Some v →
          ∃ H' O', nearest H' (vv_height v) ∧ nearest O' (vv_offsetTop v)).
Proof.
  cbn zeta. rewrite measuredInset_thresholded.
  unfold spec_measuredInset, spec_threshold, spec_textInputFocused,
    layoutHeight, height, offsetTop.
  split; [|split].
  - intros v -> HH HO.
    rewrite (Math_round_unique _ _ HH), (Math_round_unique _ _ HO).
    by destruct (activeElement d) as [e|]; [destruct (_ || _)|].
  - intros ->. by destruct (activeElement d) as [e|]; [destruct (_ || _)|].
  - intros v _. exists (Math_round (vv_height v)), (Math_round (vv_offsetTop v)).
    split; apply Math_round_nearest.
Qed.

(** A viewport height of 680.4 under a focused input in a layout of 800
    leaves a gap of 119.6, below the threshold of 120, yet the update
    rounds the height to 680 and measures 120; and with the viewport
    offset at -50 under a viewport of 600 the gap is 250, yet the update
    takes the offset as 0 and measures 200. *)
Lemma measuredInset_rounds_and_clamps :
  measuredInset fractionalReading = 120
  ∧ spec_measuredInset_of_raw fractionalReading = 0%Q
  ∧ measuredInset overscrolledReading = 200
  ∧ Qeq_bool (spec_measuredInset_of_raw overscrolledReading) 250 = true.
Proof. vm_compute. repeat split. Qed.

(** The theorem on the reading of height 680.4, which rounds to 680. *)
Lemma measuredInset_of_readings_witness :
  measuredInset fractionalReading = 120.
Proof.
  apply (proj1 (measuredInset_of_readings fractionalReading 680 0)
           {| vv_height := 3402 # 5; vv_offsetTop := 0 |});
    [reflexivity | split; vm_compute; congruence
                 | split; vm_compute; congruence].
Defined.

(** ** Steps 2 to 4: the sticky inset *)

(** C1, as the code has it. When the sticky inset is positive and the
    viewport height grew by more than 6px since the previous update while
    no text input is focused, the update forces the sticky inset to 0, and
    the ignore flag ends up set when the measured inset is non-zero and
    clear when it reads 0; and while the ignore flag is set, every update
    holds the sticky inset at 0 and clears the flag exactly when the
    measured inset reads 0. *)
Theorem closing_by_height_forces_zero (d : Dom) (s : KeyboardState) :
  (0 < stickyKeyboardInset s →
   isTextTarget d = false →
   previousHeight s + 6 < height d →
   stickyKeyboardInset (updateVisualViewport d s) = 0
   ∧ oc_keyboard_inset (updateVisualViewport d s) = Some 0
   ∧ (ignoreOpenUntilZero (updateVisualViewport d s) = true
      ↔ measuredInset d ≠ 0))
  ∧ (ignoreOpenUntilZero s = true →
     stickyKeyboardInset (updateVisualViewport d s) = 0
     ∧ oc_keyboard_inset (updateVisualViewport d s) = Some 0
     ∧ (ignoreOpenUntilZero (updateVisualViewport d s) = false
        ↔ measuredInset d = 0)).
Proof.
  split.
  - intros Hpos Hfocus Hgrow.
    assert (Hclosing : closingByHeight d s = true).
    { unfold closingByHeight. rewrite Hfocus. cbn.
      rewrite Z.gtb_ltb. by apply Z.ltb_lt. }
    unfold closingByHeight in Hclosing.
    update_cases; repeat split; intros; try done; try lia; try congruence.
  - intros Hflag.
    update_cases; repeat split; intros; try done; try lia; try congruence.
Qed.

(** The specification's own end-to-end example. With an input focused, a
    layout of 800 and a viewport of 600 the sticky inset becomes 200; the
    next reading, a viewport of 780 with nothing focused, grew by more than
    6px, yet it measures 0 and the update leaves the ignore flag clear. *)
Lemma closing_by_height_flag_not_set :
  let s := run [ViewportUpdate (reading 600 800 (Some inputElement))]
               initialState in
  let d := reading 780 800 None in
  stickyKeyboardInset s = 200
  ∧ isTextTarget d = false
  ∧ previousHeight s + 6 < height d
  ∧ measuredInset d = 0
  ∧ stickyKeyboardInset (updateVisualViewport d s) = 0
  ∧ ignoreOpenUntilZero (updateVisualViewport d s) = false.
Proof. vm_compute. repeat split. Qed.

(** The theorem on a run where the height grows by 20px over a non-zero
    reading, and on the update that follows under the flag. *)
Lemma closing_by_height_forces_zero_witness :
  let s := run [ViewportUpdate (reading 500 800 (Some inputElement))]
               initialState in
  let d := reading 520 800 None in
  (stickyKeyboardInset (updateVisualViewport d s) = 0
   ∧ oc_keyboard_inset (updateVisualViewport d s) = Some 0
   ∧ (ignoreOpenUntilZero (updateVisualViewport d s) = true
      ↔ measuredInset d ≠ 0))
  ∧ (stickyKeyboardInset
       (updateVisualViewport d (updateVisualViewport d s)) = 0
     ∧ oc_keyboard_inset
         (updateVisualViewport d (updateVisualViewport d s)) = Some 0
     ∧ (ignoreOpenUntilZero
          (updateVisualViewport d (updateVisualViewport d s)) = false
        ↔ measuredInset d = 0)).
Proof.
  intros s d. split.
  - apply (proj1 (closing_by_height_forces_zero d s)); vm_compute; reflexivity.
  - apply (proj2 (closing_by_height_forces_zero d (updateVisualViewport d s))).
    vm_compute; reflexivity.
Defined.

(** C2, as the code has it. In every run of the effect, an event lowers a
    positive sticky inset only by a force-close (closing by height, or
    focus-out from a text input to something else), by a measured inset of
    0, or by an update under a focused text input, which sets the sticky
    inset to the measured inset even when that is lower. *)
Theorem sticky_lowered_only_when_allowed (evs : list Event) (e : Event) :
  let s := run evs initialState in
  0 < stickyKeyboardInset s →
  stickyKeyboardInset (step s e) < stickyKeyboardInset s →
  lowering_allowed s e.
Proof.
  intros s Hpos Hlower.
  destruct (consistent_run evs initialState consistent_initial) as [_ Hflag].
  fold s in Hflag.
  assert (Hoff : ignoreOpenUntilZero s = false).
  { destruct (ignoreOpenUntilZero s); [|done]. specialize (Hflag eq_refl). lia. }
  clearbody s.
  assert (Hupdate : ∀ d,
    stickyKeyboardInset (updateVisualViewport d s) < stickyKeyboardInset s →
    measuredInset d = 0
    ∨ closingByHeight d s = true
    ∨ (isTextTarget d = true ∧ 0 < measuredInset d
       ∧ stickyKeyboardInset (updateVisualViewport d s) = measuredInset d)).
  { intros d Hlt. pose proof (measuredInset_nonneg d).
    destruct (measuredInset d =? 0) eqn:Hm; zify_tests; [by left|].
    destruct (closingByHeight d s) eqn:Hc; [by auto|].
    right; right. revert Hlt. unfold closingByHeight in Hc.
    rewrite Hoff in *.
    update_cases; try lia; try congruence; intros; repeat split; try done; lia. }
  destruct e as [d|target d|target related]; cbn [step lowering_allowed] in *.
  - by apply Hupdate.
  - unfold handleFocusIn in *. destruct target as [t|]; [|lia].
    assert (Hsame : (if isTextElement (Some t) then set_ignore false s else s) = s).
    { destruct (isTextElement (Some t)); [|done].
      destruct s; cbn in *; by subst. }
    rewrite Hsame in *. by apply Hupdate.
  - unfold handleFocusOut in *. destruct target as [t|]; [|lia].
    destruct (isTextElement (Some t)); [|lia].
    destruct (isTextElement related); [lia|done].
Qed.

(** With an input focused, the sticky inset opens at 300 and the next
    update, still under the focused input and measuring 200, lowers it to
    200: no force-close and no reading of 0 is involved. *)
Lemma sticky_lowered_under_focus :
  let s := run [ViewportUpdate (reading 500 800 (Some inputElement))]
               initialState in
  let d := reading 600 800 (Some inputElement) in
  stickyKeyboardInset s = 300
  ∧ isTextTarget d = true
  ∧ measuredInset d = 200
  ∧ closingByHeight d s = false
  ∧ stickyKeyboardInset (step s (ViewportUpdate d)) = 200
  ∧ ignoreOpenUntilZero (step s (ViewportUpdate d)) = false.
Proof. vm_compute. repeat split. Qed.

(** The theorem on that run: the lowering falls under the third case. *)
Lemma sticky_lowered_only_when_allowed_witness :
  lowering_allowed
    (run [ViewportUpdate (reading 500 800 (Some inputElement))] initialState)
    (ViewportUpdate (reading 600 800 (Some inputElement))).
Proof.
  apply (sticky_lowered_only_when_allowed
           [ViewportUpdate (reading 500 800 (Some inputElement))]
           (ViewportUpdate (reading 600 800 (Some inputElement))));
    vm_compute; reflexivity.
Defined.

(** Once set, the ignore flag holds the sticky inset at 0 through every
    update that measures a non-zero inset. *)
Lemma ignored_while_nonzero ds s :
  ignoreOpenUntilZero s = true →
  stickyKeyboardInset s = 0 →
  Forall (fun d => measuredInset d ≠ 0) ds →
  ignoreOpenUntilZero (run (ViewportUpdate <$> ds) s) = true
  ∧ stickyKeyboardInset (run (ViewportUpdate <$> ds) s) = 0.
Proof.
  intros Hflag Hzero Hds. revert s Hflag Hzero.
  induction Hds as [|d ds Hd _ IH]; intros s Hflag Hzero; [done|].
  cbn. apply IH; update_cases; done.
Qed.

Lemma run_below_threshold ds s :
  stickyKeyboardInset s = 0 →
  Forall belowThreshold ds →
  stickyKeyboardInset (run (ViewportUpdate <$> ds) s) = 0.
Proof.
  intros Hs Hds. revert s Hs.
  induction Hds as [|d ds Hd _ IH]; intros s Hs; [done|].
  cbn. apply IH. by apply update_measured_zero, measuredInset_below.
Qed.

(** C3. When the sticky inset is 0 and the ignore flag is clear, an update
    raises the sticky inset if and only if the measured inset is positive
    and a text input is focused, and it raises it to the measured inset;
    and over every sequence of updates whose raw inset stays below the
    threshold that applies, the sticky inset remains 0 after each of
    them. *)
Theorem sticky_raised_only_under_focus
    (d : Dom) (s : KeyboardState) (ds : list Dom) (k : nat) :
  stickyKeyboardInset s = 0 →
  (ignoreOpenUntilZero s = false →
   (0 < stickyKeyboardInset (updateVisualViewport d s)
    ↔ 0 < measuredInset d ∧ isTextTarget d = true)
   ∧ (stickyKeyboardInset (updateVisualViewport d s) ≠ 0 →
      stickyKeyboardInset (updateVisualViewport d s) = measuredInset d))
  ∧ (Forall belowThreshold ds →
     stickyKeyboardInset (run (ViewportUpdate <$> take k ds) s) = 0).
Proof.
  intros Hzero. split.
  - intros Hflag.
    update_cases; repeat split; intros; try done; try lia;
      repeat match goal with H : _ ∧ _ |- _ => destruct H end;
      try done; try congruence; lia.
  - intros Hds. apply run_below_threshold; [done|].
    by apply Forall_take.
Qed.

(** The theorem from the initial state: a reading of 200 under a focused
    input, and two readings below their thresholds. *)
Lemma sticky_raised_only_under_focus_witness :
  let d := reading 600 800 (Some inputElement) in
  let ds := [reading 700 800 (Some inputElement); reading 650 800 None] in
  ((0 < stickyKeyboardInset (updateVisualViewport d initialState)
    ↔ 0 < measuredInset d ∧ isTextTarget d = true)
   ∧ (stickyKeyboardInset (updateVisualViewport d initialState) ≠ 0 →
      stickyKeyboardInset (updateVisualViewport d initialState)
      = measuredInset d))
  ∧ stickyKeyboardInset (run (ViewportUpdate <$> take 2 ds) initialState) = 0.
Proof.
  intros d ds.
  destruct (sticky_raised_only_under_focus d initialState ds 2 eq_refl)
    as [Hraise Hstay].
  split.
  - apply Hraise. reflexivity.
  - apply Hstay. repeat constructor; vm_compute; reflexivity.
Defined.

(** ** Focus events *)

(** C5. On a focus-out whose source is a text input: when the new focus
    target is not a text input the sticky inset is forced to 0 and the
    ignore flag is set, whatever the viewport measures (the handler reads
    no viewport value); when the new focus target is another text input
    the keyboard state is unchanged. *)
Theorem focus_out_of_text_input
    (target related : option Element) (s : KeyboardState) :
  isTextElement target = true →
  (isTextElement related = false →
   stickyKeyboardInset (handleFocusOut target related s) = 0
   ∧ ignoreOpenUntilZero (handleFocusOut target related s) = true
   ∧ oc_keyboard_inset (handleFocusOut target related s) = Some 0
   ∧ previousHeight (handleFocusOut target related s) = previousHeight s)
  ∧ (isTextElement related = true →
     handleFocusOut target related s = s).
Proof.
  intros Htarget. unfold handleFocusOut.
  destruct target as [t|]; [|done]. rewrite Htarget.
  split; intros ->; done.
Qed.

(** The theorem with the keyboard open at 300: focus moving from an input
    to a button, and from an input to an input. *)
Lemma focus_out_of_text_input_witness :
  let s := run [ViewportUpdate (reading 500 800 (Some inputElement))]
               initialState in
  (stickyKeyboardInset
     (handleFocusOut (Some inputElement) (Some buttonElement) s) = 0
   ∧ ignoreOpenUntilZero
       (handleFocusOut (Some inputElement) (Some buttonElement) s) = true
   ∧ oc_keyboard_inset
       (handleFocusOut (Some inputElement) (Some buttonElement) s) = Some 0
   ∧ previousHeight
       (handleFocusOut (Some inputElement) (Some buttonElement) s)
     = previousHeight s)
  ∧ handleFocusOut (Some inputElement) (Some inputElement) s = s.
Proof.
  intros s. split.
  - apply (proj1 (focus_out_of_text_input
                    (Some inputElement) (Some buttonElement) s eq_refl)).
    reflexivity.
  - apply (proj2 (focus_out_of_text_input
                    (Some inputElement) (Some inputElement) s eq_refl)).
    reflexivity.
Defined.

End MainLayoutProofs.

(* ===================================================================== *)
(** * Properties of JavaScript strings *)
(* ===================================================================== *)

Module JSProofs.

Lemma trimStart_nil_iff s :
  trimStart s = [] ↔ forallb isWhiteSpace s = true.
Proof.
  induction s as [|c s IH]; [done|]. cbn.
  destruct (isWhiteSpace c); cbn; [done|]. split; done.
Qed.

(** What [trimStart] returns is empty or starts with a character that is
    not white space. *)
Lemma trimStart_head s :
  match trimStart s with
  | [] => True
  | c :: _ => isWhiteSpace c = false
  end.
Proof.
  induction s as [|c s IH]; [done|]. cbn.
  destruct (isWhiteSpace c) eqn:E; [done|]. cbn. done.
Qed.

Lemma forallb_rev (f : N → bool) s :
  forallb f (List.rev s) = forallb f s.
Proof.
  induction s as [|c s IH]; [done|]. cbn.
  rewrite forallb_app, IH. cbn. rewrite andb_true_r. apply andb_comm.
Qed.

(** [!query.trim()] holds exactly for the queries made of white space
    only, the empty query among them. *)
Lemma trim_falsy_iff q :
  truthy (trim q) = false ↔ forallb isWhiteSpace q = true.
Proof.
  unfold trim, trimEnd. split.
  - intros Hfalsy.
    assert (Hnil : List.rev (trimStart (List.rev (trimStart q))) = []).
    { destruct (List.rev _); [done | discriminate]. }
    apply (f_equal (@List.rev N)) in Hnil. rewrite rev_involutive in Hnil.
    cbn in Hnil. apply trimStart_nil_iff in Hnil.
    rewrite forallb_rev in Hnil.
    pose proof (trimStart_head q) as Hhead.
    apply trimStart_nil_iff.
    destruct (trimStart q) as [|c r]; [done|].
    cbn in Hnil. rewrite Hhead in Hnil. discriminate.
  - intros Hall. apply trimStart_nil_iff in Hall. by rewrite Hall.
Qed.

Lemma startsWith_prefix s p : startsWith s p = true ↔ p `prefix_of` s.
Proof.
  revert s. induction p as [|c p IH]; intros s.
  - destruct s; cbn; split; intros; try done; apply prefix_nil.
  - destruct s as [|d s]; cbn.
    + split; [done|]. intros H. by apply prefix_nil_not in H.
    + rewrite andb_true_iff, N.eqb_eq, IH. split.
      * intros [-> H]. by apply prefix_cons.
      * intros H. split; [by apply prefix_cons_inv_1 in H
                         | by apply prefix_cons_inv_2 in H].
Qed.

(** [includes] finds exactly the contiguous occurrences. *)
Lemma includes_occurrence s sub :
  includes s sub = true ↔ ∃ before after, s = before ++ sub ++ after.
Proof.
  induction s as [|c s IH]; cbn [includes].
  - rewrite orb_false_r, startsWith_prefix. split.
    + intros [k ->]. by exists [], k.
    + intros (before & after & H). destruct before; [|done].
      cbn in H. by exists after.
  - rewrite orb_true_iff, startsWith_prefix, IH. split.
    + intros [[k ->] | (before & after & ->)].
      * by exists [], k.
      * by exists (c :: before), after.
    + intros (before & after & H). destruct before as [|c' before].
      * left. by exists after.
      * right. cbn in H. injection H as -> ->. by exists before, after.
Qed.

Lemma filter_sublist {A} (f : A → bool) (l : list A) :
  List.filter f l `sublist_of` l.
Proof.
  induction l as [|x l IH]; cbn; [done|].
  destruct (f x); [by apply sublist_skip | by apply sublist_cons].
Qed.

Lemma filter_filter {A} (f g : A → bool) (l : list A) :
  List.filter g (List.filter f l) = List.filter (fun x => f x && g x) l.
Proof.
  induction l as [|x l IH]; cbn; [done|].
  destruct (f x); cbn; [destruct (g x)|]; by rewrite ?IH.
Qed.

Lemma filter_all {A} (l : list A) : List.filter (fun _ => true) l = l.
Proof. induction l as [|x l IH]; cbn; by rewrite ?IH. Qed.

End JSProofs.

(* ===================================================================== *)
(** * Properties of the branch picker *)
(* ===================================================================== *)

Module BranchPickerDialogProofs.

Import BranchPickerDialog JSProofs.

Section Filter.

Variable toLowerCase : jsstring → jsstring.

Lemma blank_trim query : blank query = negb (truthy (trim query)).
Proof.
  unfold blank. destruct (truthy (trim query)) eqn:E; cbn.
  - destruct (forallb isWhiteSpace query) eqn:F; [|done].
    apply trim_falsy_iff in F. congruence.
  - by apply trim_falsy_iff.
Qed.

(** [filterBranches] as a single filter. *)
Lemma filterBranches_filter branches query :
  filterBranches toLowerCase branches query
  = List.filter
      (fun b => blank query || includes (toLowerCase b) (toLowerCase query))
      branches.
Proof.
  unfold filterBranches. rewrite blank_trim.
  destruct (negb (truthy (trim query))); cbn; [|done].
  by rewrite filter_all.
Qed.

(** C10. The filter returns the list unchanged whenever the query is empty
    or consists only of white space, and for every query its result is an
    order-preserving sublist of the input list. *)
Theorem filterBranches_identity_and_sublist
    (branches : list jsstring) (query : jsstring) :
  (Forall (fun c => isWhiteSpace c = true) query →
   filterBranches toLowerCase branches query = branches)
  ∧ filterBranches toLowerCase branches query `sublist_of` branches.
Proof.
  split.
  - intros Hblank. rewrite filterBranches_filter.
    assert (Hb : blank query = true).
    { unfold blank. apply forallb_forall. intros c Hc.
      rewrite Forall_forall in Hblank. apply Hblank.
      by apply list_elem_of_In. }
    rewrite Hb. cbn. apply filter_all.
  - rewrite filterBranches_filter. apply filter_sublist.
Qed.

(** A worktree backs branch [b] when its branch field is [b], a non-empty
    string. *)
Lemma elem_of_worktreeBranches b worktrees :
  b ∈ worktreeBranches worktrees
  ↔ b ≠ [] ∧ ∃ w, w ∈ worktrees ∧ wt_branch w = Some b.
Proof.
  unfold worktreeBranches. rewrite elem_of_list_to_set, list_elem_of_omap.
  split.
  - intros (x & Hx & ->). apply list_elem_of_In, filter_In in Hx.
    destruct Hx as [Hin Htruthy]. apply in_map_iff in Hin.
    destruct Hin as (w & Hw & Hin). split.
    + intros ->. done.
    + exists w. split; [by apply list_elem_of_In | done].
  - intros (Hne & w & Hin & Hw). exists (Some b). split; [|done].
    apply list_elem_of_In, filter_In. split.
    + apply in_map_iff. exists w. split; [done | by apply list_elem_of_In].
    + destruct b; done.
Qed.

(** C8, as the code has it. The displayed branch list of a project is
    exactly the branches of its listing whose lower-cased name contains
    the lower-cased query (every branch when the query is empty or all
    white space), minus the names starting with "remotes/" and minus the
    names in the set of branches backing an existing worktree, in the
    order of the listing. *)
Theorem localBranches_displayed
    (data : option ProjectBranchData) (query b : jsstring) :
  localBranches toLowerCase data query
  = spec_displayed_guarded toLowerCase (allBranches data) query
      (worktreeBranches (dataWorktrees data))
  ∧ localBranches toLowerCase data query `sublist_of` allBranches data
  ∧ (b ∈ localBranches toLowerCase data query
     ↔ b ∈ allBranches data
       ∧ (Forall (fun c => isWhiteSpace c = true) query
          ∨ ∃ before after,
              toLowerCase b = before ++ toLowerCase query ++ after)
       ∧ ¬ lit "remotes/" `prefix_of` b
       ∧ b ∉ worktreeBranches (dataWorktrees data)).
Proof.
  assert (Heq : localBranches toLowerCase data query
    = spec_displayed_guarded toLowerCase (allBranches data) query
        (worktreeBranches (dataWorktrees data))).
  { unfold localBranches, spec_displayed_guarded, dataWorktrees.
    rewrite filterBranches_filter, !filter_filter.
    apply filter_ext. intros x. by rewrite andb_assoc. }
  split; [done|]. rewrite Heq. split; [apply filter_sublist|].
  unfold spec_displayed_guarded.
  rewrite list_elem_of_In, filter_In, <- list_elem_of_In.
  rewrite !andb_true_iff, orb_true_iff, !negb_true_iff.
  rewrite bool_decide_eq_false, includes_occurrence.
  rewrite <- not_true_iff_false, startsWith_prefix.
  unfold blank. rewrite forallb_forall, Forall_forall.
  setoid_rewrite list_elem_of_In. tauto.
Qed.

End Filter.

(** On the listing [main, Feature/X, remotes/origin/main, dev] with a
    worktree on dev, the query of one space displays main and Feature/X,
    neither of which contains a space; the reading without the guard
    displays nothing. *)
Lemma blank_query_displays_all :
  localBranches toLowerCaseBasicLatin (Some loadedA) (lit " ")
  = [lit "main"; lit "Feature/X"]
  ∧ includes (toLowerCaseBasicLatin (lit "main"))
      (toLowerCaseBasicLatin (lit " ")) = false
  ∧ spec_displayed toLowerCaseBasicLatin (allBranches (Some loadedA))
      (lit " ") (worktreeBranches (dataWorktrees (Some loadedA))) = []
  ∧ localBranches toLowerCaseBasicLatin (Some loadedA) (lit " ")
    ≠ spec_displayed toLowerCaseBasicLatin (allBranches (Some loadedA))
        (lit " ") (worktreeBranches (dataWorktrees (Some loadedA))).
Proof. vm_compute. repeat split. discriminate. Qed.

(** The theorem on the listing of project a, for a query of two spaces
    and for the query "feat". *)
Lemma filterBranches_identity_and_sublist_witness :
  filterBranches toLowerCaseBasicLatin (gb_all listingA) (lit "  ")
  = gb_all listingA
  ∧ filterBranches toLowerCaseBasicLatin (gb_all listingA) (lit "feat")
    `sublist_of` gb_all listingA.
Proof.
  split.
  - apply (proj1 (filterBranches_identity_and_sublist toLowerCaseBasicLatin
                    (gb_all listingA) (lit "  "))).
    repeat constructor.
  - apply (proj2 (filterBranches_identity_and_sublist toLowerCaseBasicLatin
                    (gb_all listingA) (lit "feat"))).
Defined.

Example filter_by_substring :
  localBranches toLowerCaseBasicLatin (Some loadedA) (lit "FEAT")
  = [lit "Feature/X"].
Proof. vm_compute. reflexivity. Qed.

(** ** The load state *)

Lemma published_snoc evs e m :
  published (evs ++ [e]) m = applyLoad (published evs m) e.
Proof. unfold published. by rewrite fold_left_app. Qed.

Lemma loading_shape_mono evs e pid d :
  loading_shape evs pid d → loading_shape (evs ++ [e]) pid d.
Proof. intros [-> Hin]. split; [done | set_solver]. Qed.

Lemma success_shape_mono evs e pid d :
  success_shape evs pid d → success_shape (evs ++ [e]) pid d.
Proof. intros (b & w & -> & Hin). exists b, w. split; [done | set_solver]. Qed.

Lemma error_shape_mono evs e pid d :
  error_shape evs pid d → error_shape (evs ++ [e]) pid d.
Proof. intros (err & -> & Hin). exists err. split; [done | set_solver]. Qed.

(** Opening the dialog publishes what the start of one load per project
    publishes, in the order of the project list. *)
Lemma openEffect_published projects activeProjectId st :
  projectData (openEffect true projects activeProjectId st)
  = published (LoadStarted ∘ id <$> projects) (projectData st).
Proof.
  unfold openEffect. cbn [negb].
  set (st1 := match List.find _ projects with Some _ => _ | None => st end).
  assert (H1 : projectData st1 = projectData st).
  { subst st1. by destruct (List.find _ projects). }
  rewrite <- H1. clear H1. generalize st1. clear st1 st.
  induction projects as [|p projects IH]; intros st; [done|].
  cbn. by rewrite IH.
Qed.

(** Every published state has one of the three shapes. *)
Lemma published_shape evs pid d :
  published evs (projectData initialState) !! pid = Some d →
  loading_shape evs pid d ∨ success_shape evs pid d ∨ error_shape evs pid d.
Proof.
  revert d. induction evs as [|e evs IH] using rev_ind; intros d.
  - cbn. by rewrite lookup_empty.
  - rewrite published_snoc.
    assert (Hold : published evs (projectData initialState) !! pid = Some d →
      loading_shape (evs ++ [e]) pid d ∨ success_shape (evs ++ [e]) pid d
      ∨ error_shape (evs ++ [e]) pid d).
    { intros H. destruct (IH d H) as [H1|[H2|H3]];
        eauto using loading_shape_mono, success_shape_mono, error_shape_mono. }
    destruct e as [p|p b w|p err]; cbn [applyLoad];
      unfold markLoading, markLoaded, markFailed;
      rewrite lookup_insert; case_decide; subst; try done;
      intros [= <-].
    + left. split; [done | set_solver].
    + right; left. exists b, w. split; [done | set_solver].
    + right; right. exists err. split; [done | set_solver].
Qed.

(** The three shapes exclude one another. *)
Lemma shapes_exclusive evs pid d :
  ¬ (loading_shape evs pid d ∧ success_shape evs pid d)
  ∧ ¬ (loading_shape evs pid d ∧ error_shape evs pid d)
  ∧ ¬ (success_shape evs pid d ∧ error_shape evs pid d).
Proof.
  repeat split.
  - intros [[-> _] (b & w & [=] & _)].
  - intros [[-> _] (err & [=] & _)].
  - intros [(b & w & -> & _) (err & [=] & _)].
Qed.

(** C9. Every published load state of a project is in exactly one of three
    shapes: loading (branches null, worktrees empty, error null), success
    (loading false, error null, the branch and worktree results of one
    joined pair of requests present together) or error (loading false,
    branches null, worktrees empty, error non-null); no state holds a
    branch result without the worktree result joined with it, nor a
    worktree result without a branch result. *)
Theorem published_state_shapes
    (evs : list LoadEvent) (pid : jsstring) (d : ProjectBranchData) :
  published evs (projectData initialState) !! pid = Some d →
  exactly_one (loading_shape evs pid d) (success_shape evs pid d)
    (error_shape evs pid d)
  ∧ (∀ b, branches d = Some b → LoadResolved pid b (worktrees d) ∈ evs)
  ∧ (worktrees d ≠ [] → is_Some (branches d)).
Proof.
  intros Hd. pose proof (published_shape evs pid d Hd) as Hshape.
  destruct (shapes_exclusive evs pid d) as (Hls & Hle & Hse).
  split; [|split].
  - unfold exactly_one. tauto.
  - intros b Hb.
    destruct Hshape as [[-> _]|[(b' & w & -> & Hin)|(err & -> & _)]];
      cbn in *; try done. by injection Hb as ->.
  - intros Hw.
    destruct Hshape as [[-> _]|[(b' & w & -> & Hin)|(err & -> & _)]];
      cbn in *; try done.
Qed.

(** The theorem on two interleaved loads, a resolving and b rejecting. *)
Lemma published_state_shapes_witness :
  let evs := [LoadStarted (lit "a"); LoadStarted (lit "b");
              LoadRejected (lit "b") NotAnError;
              LoadResolved (lit "a") listingA worktreesA] in
  exactly_one (loading_shape evs (lit "a") loadedA)
    (success_shape evs (lit "a") loadedA) (error_shape evs (lit "a") loadedA)
  ∧ (∀ b, branches loadedA = Some b →
          LoadResolved (lit "a") b (worktrees loadedA) ∈ evs)
  ∧ (worktrees loadedA ≠ [] → is_Some (branches loadedA)).
Proof.
  intros evs. apply (published_state_shapes evs (lit "a") loadedA).
  vm_compute. reflexivity.
Defined.

(** ** Worktree creation *)

(** C7. When the external call succeeds, the action closes the dialog
    ([onOpenChange(false)] is its only outside call); when it throws, the
    error is caught and logged, [onOpenChange] is not called and nothing
    but the in-flight key changes in the component state, so no error is
    recorded; in both cases the in-flight key ends up cleared. *)
Theorem handleCreateWorktree_settles
    (project : Project) (branchName : jsstring) (w : World) (err : Thrown) :
  let ok := handleCreateWorktree (Normal tt) project branchName w in
  let ko := handleCreateWorktree (Throw err) project branchName w in
  (ok.1 = Normal tt
   ∧ effects ok.2 = effects w ++ [OnOpenChange false]
   ∧ creatingWorktree (component ok.2) = None)
  ∧ (ko.1 = Normal tt
     ∧ effects ko.2
       = effects w ++ [ConsoleError (lit "Failed to create worktree:") err]
     ∧ component ko.2 = setCreatingWorktree None (component w)
     ∧ projectData (component ko.2) = projectData (component w)
     ∧ creatingWorktree (component ko.2) = None).
Proof. destruct w as [st log]. cbn. repeat split. Qed.

(** While the call is pending, the row of that project and branch, and
    with distinct keys only that row, shows the in-flight indicator. *)
Lemma in_flight_row_only (st : State) (project other : Project)
    (branchName otherBranch : jsstring) (data : option ProjectBranchData) :
  let pending :=
    setCreatingWorktree (Some (rowKey (id project) branchName)) st in
  row_isCreating (renderRow pending project data branchName) = true
  ∧ (rowKey (id other) otherBranch ≠ rowKey (id project) branchName →
     row_isCreating (renderRow pending other data otherBranch) = false).
Proof.
  cbn. split.
  - by apply bool_decide_eq_true.
  - intros Hne. apply bool_decide_eq_false. congruence.
Qed.

(** ** Load failures *)

Section Failure.

Variable toLowerCase : jsstring → jsstring.

Lemma rendered_card_inv projects st card :
  card ∈ rendered_cards (render toLowerCase projects st) →
  ∃ p, p ∈ gitRepoProjects projects (projectData st)
       ∧ card = renderCard toLowerCase st p.
Proof.
  unfold render. destruct (_ =? _)%nat; cbn.
  - intros H. by apply elem_of_nil in H.
  - rewrite list_elem_of_In, in_map_iff. intros (p & <- & Hp).
    exists p. split; [by apply list_elem_of_In | done].
Qed.

Lemma gitRepoProjects_inv projects m p :
  p ∈ gitRepoProjects projects m →
  ∃ data, m !! id p = Some data
          ∧ truthy_opt (error data) = false
          ∧ (loading data = true ∨ is_Some (branches data)).
Proof.
  unfold gitRepoProjects. rewrite list_elem_of_In, filter_In.
  intros [_ Hkeep]. destruct (m !! id p) as [data|]; [|done].
  apply andb_true_iff in Hkeep. destruct Hkeep as [Herr Hrest].
  exists data. split; [done|]. split; [by apply negb_true_iff|].
  apply orb_true_iff in Hrest. destruct Hrest as [H|H]; [by left|].
  right. by apply bool_decide_eq_true in H.
Qed.

(** The error branch of a card is never taken: a project whose state
    carries an error is not among the rendered projects. *)
Lemma error_text_never_rendered projects st card text :
  card ∈ rendered_cards (render toLowerCase projects st) →
  card_body card ≠ ErrorText text.
Proof.
  intros Hcard. apply rendered_card_inv in Hcard.
  destruct Hcard as (p & Hp & ->). apply gitRepoProjects_inv in Hp.
  destruct Hp as (data & Hdata & Herr & _).
  unfold renderCard. cbn [card_body]. rewrite Hdata. cbn.
  rewrite Herr.
  repeat match goal with |- context [if ?b then _ else _] => destruct b end;
    done.
Qed.

(** C6, as the code has it. When the load of a project fails, the failure
    is captured in that project's state as a message (the thrown error's
    message, or "Failed to load"), the states of all other projects are
    unchanged, and the project is left out of the rendered project list:
    no card is rendered for it and no card shows an error text. *)
Theorem load_failure_captured_and_hidden
    (pid : jsstring) (err : Thrown) (st : State) (projects : list Project) :
  let st' := setProjectData (markFailed pid err) st in
  projectData st' !! pid
  = Some {| branches := None; worktrees := []; loading := false;
            error := Some (errorMessage err) |}
  ∧ (∀ message, err = ErrorInstance message → errorMessage err = message)
  ∧ (err = NotAnError → errorMessage err = lit "Failed to load")
  ∧ (∀ other, other ≠ pid → projectData st' !! other = projectData st !! other)
  ∧ (∀ card, card ∈ rendered_cards (render toLowerCase projects st') →
             card_key card ≠ pid ∧ ∀ text, card_body card ≠ ErrorText text).
Proof.
  cbn. unfold markFailed.
  split; [by rewrite lookup_insert_eq|].
  split; [by intros message ->|].
  split; [by intros ->|].
  split; [intros other Hne; by rewrite lookup_insert_ne|].
  intros card Hcard. split.
  - intros Hkey. apply rendered_card_inv in Hcard.
    destruct Hcard as (p & Hp & ->). apply gitRepoProjects_inv in Hp.
    destruct Hp as (data & Hdata & _ & Hrest).
    cbn in Hkey, Hdata. rewrite Hkey, lookup_insert_eq in Hdata.
    injection Hdata as <-. cbn in Hrest.
    destruct Hrest as [?|[? ?]]; done.
  - intros text. by eapply error_text_never_rendered.
Qed.

End Failure.

(** After the load of project a failed with the message "boom", the state
    of a holds the message and the card of a is expanded, yet the dialog
    renders "No git repositories found": neither a card for a nor its
    error is displayed. *)
Lemma load_error_not_displayed :
  projectData failedA !! lit "a"
  = Some {| branches := None; worktrees := []; loading := false;
            error := Some (lit "boom") |}
  ∧ bool_decide (lit "a" ∈ expandedProjects failedA) = true
  ∧ render toLowerCaseBasicLatin [projectA] failedA = NoRepositories.
Proof. vm_compute. repeat split. Qed.

(** The theorem on two projects, the load of a rejecting with a value that
    is not an [Error]. *)
Lemma load_failure_captured_and_hidden_witness :
  let st := openEffect true [projectA; projectB] (Some (lit "a"))
              initialState in
  let st' := setProjectData (markFailed (lit "a") NotAnError) st in
  projectData st' !! lit "a"
  = Some {| branches := None; worktrees := []; loading := false;
            error := Some (lit "Failed to load") |}
  ∧ projectData st' !! lit "b" = projectData st !! lit "b".
Proof.
  intros st st'.
  destruct (load_failure_captured_and_hidden toLowerCaseBasicLatin
              (lit "a") NotAnError st [projectA; projectB])
    as (Hstate & _ & Hfallback & Hothers & _).
  split.
  - rewrite <- (Hfallback eq_refl). exact Hstate.
  - apply Hothers. vm_compute. discriminate.
Defined.

End BranchPickerDialogProofs.

(* ===================================================================== *)
(** * Further properties of MainLayout.tsx *)
(* ===================================================================== *)

Module MainLayoutShellProofs.

Import MainLayout MainLayoutShell MainLayoutProofs.

#[local] Set Warnings "-clear-no-such-hyp".

(** ** The keyboard effect over whole runs *)

Lemma offsetTop_nonneg d : 0 ≤ offsetTop d.
Proof. unfold offsetTop. destruct (visualViewport d); lia. Qed.

(** The measured inset is 0 or at least the threshold that applies (120
    under a focused text input, 180 otherwise), and it never exceeds the
    gap between the layout height and the viewport height: a viewport
    offset only reduces it, and a negative offset counts as 0. *)
Theorem measuredInset_range (d : Dom) :
  (measuredInset d = 0 ∨ openThreshold d ≤ measuredInset d)
  ∧ (isTextTarget d = false → measuredInset d = 0 ∨ 180 ≤ measuredInset d)
  ∧ measuredInset d ≤ Z.max 0 (layoutHeight d - height d).
Proof.
  pose proof (offsetTop_nonneg d) as Hoff.
  unfold measuredInset, openThreshold, rawInset, viewportSum.
  destruct (isTextTarget d);
    destruct (_ >=? _) eqn:E; zify_tests; repeat split; intros; try lia;
    try done.
Qed.

Lemma measuredInset_range_witness :
  measuredInset (reading 700 800 None) = 0
  ∨ 180 ≤ measuredInset (reading 700 800 None).
Proof.
  apply (proj1 (proj2 (measuredInset_range (reading 700 800 None)))).
  reflexivity.
Defined.

(** After an update the published inset is the sticky inset. *)
Lemma update_publishes d s :
  oc_keyboard_inset (updateVisualViewport d s)
  = Some (stickyKeyboardInset (updateVisualViewport d s)).
Proof. reflexivity. Qed.

Lemma step_publishes s e :
  oc_keyboard_inset s = Some (stickyKeyboardInset s) →
  oc_keyboard_inset (step s e) = Some (stickyKeyboardInset (step s e)).
Proof.
  intros Hs. destruct e as [d|target d|target related]; cbn [step].
  - apply update_publishes.
  - unfold handleFocusIn. destruct target; [apply update_publishes | done].
  - unfold handleFocusOut. destruct target; [|done].
    destruct (isTextElement (Some _)); [|done].
    destruct (isTextElement related); done.
Qed.

(** Once the effect is mounted (it runs one update when it mounts), the
    custom property [--oc-keyboard-inset] holds the sticky inset after
    every event: the layout never shows an inset other than the one the
    heuristic has settled on. *)
Theorem published_inset_is_sticky (d : Dom) (evs : list Event) :
  let s := run (ViewportUpdate d :: evs) initialState in
  oc_keyboard_inset s = Some (stickyKeyboardInset s).
Proof.
  cbn. generalize (update_publishes d initialState).
  generalize (updateVisualViewport d initialState).
  induction evs as [|e evs IH]; intros s Hs; [done|].
  cbn. apply IH. by apply step_publishes.
Qed.

Lemma update_sticky_large d s :
  stickyKeyboardInset s = 0 ∨ 120 ≤ stickyKeyboardInset s →
  stickyKeyboardInset (updateVisualViewport d s) = 0
  ∨ 120 ≤ stickyKeyboardInset (updateVisualViewport d s).
Proof.
  intros Hs.
  destruct (measuredInset_zero_or_large d) as [Hm|[Hm _]];
    pose proof (openThreshold_cases d); update_cases; lia.
Qed.

(** In every run of the effect the sticky inset is 0 or at least 120px: a
    small positive inset is never published. *)
Theorem sticky_zero_or_large (evs : list Event) :
  stickyKeyboardInset (run evs initialState) = 0
  ∨ 120 ≤ stickyKeyboardInset (run evs initialState).
Proof.
  assert (H0 : stickyKeyboardInset initialState = 0
               ∨ 120 ≤ stickyKeyboardInset initialState) by (by left).
  revert H0. generalize initialState.
  induction evs as [|e evs IH]; intros s Hs; [done|].
  cbn. apply IH. destruct e as [d|target d|target related]; cbn [step].
  - by apply update_sticky_large.
  - unfold handleFocusIn. destruct target; [|done].
    apply update_sticky_large. by destruct (isTextElement _).
  - unfold handleFocusOut. destruct target; [|done].
    destruct (isTextElement (Some _)); [|done].
    destruct (isTextElement related); [done | by left].
Qed.

(** An update is determined by the sticky inset and the flag it computes:
    the rest of the state it writes comes from the reading. *)
Lemma update_record d s :
  updateVisualViewport d s
  = {| stickyKeyboardInset := stickyKeyboardInset (updateVisualViewport d s);
       ignoreOpenUntilZero := ignoreOpenUntilZero (updateVisualViewport d s);
       previousHeight := height d;
       oc_keyboard_inset :=
         Some (stickyKeyboardInset (updateVisualViewport d s));
       oc_visual_viewport_offset_top := Some (offsetTop d) |}.
Proof.
  unfold updateVisualViewport, set_previousHeight, publish_keyboard_inset.
  cbn [stickyKeyboardInset ignoreOpenUntilZero previousHeight
       oc_keyboard_inset oc_visual_viewport_offset_top].
  f_equal. unfold decide_inset, forceKeyboardClosed, publish_keyboard_inset,
    set_ignore, set_sticky, publish_offset_top.
  cbn [stickyKeyboardInset ignoreOpenUntilZero previousHeight
       oc_keyboard_inset oc_visual_viewport_offset_top].
  repeat match goal with
  | |- context [if ?b then _ else _] => destruct b
  end; reflexivity.
Qed.

Lemma update_settles d s : settled d (updateVisualViewport d s).
Proof.
  pose proof (measuredInset_nonneg d). unfold settled.
  update_cases;
    first [ left; repeat split; (lia || congruence || done)
          | right; left; repeat split; (lia || congruence || done || tauto)
          | right; left; split; [done|]; split; [done|]; left; lia
          | right; left; split; [done|]; split; [done|]; right; congruence
          | right; right; left; repeat split; (lia || congruence || done)
          | right; right; right; repeat split; (lia || congruence || done) ].
Qed.

Lemma settled_stable d s :
  settled d s →
  previousHeight s = height d →
  stickyKeyboardInset (updateVisualViewport d s) = stickyKeyboardInset s
  ∧ ignoreOpenUntilZero (updateVisualViewport d s) = ignoreOpenUntilZero s.
Proof.
  unfold settled. intros Hs Hprev.
  destruct Hs as [(Hf & Hz & Hm)|[(Hf & Hz & Hm)|[(Hf & Hz & Hm & Ht)
                 |(Hf & Hz & Hm & Ht & Hle)]]];
    update_cases; split; try lia; try congruence; try done;
    destruct Hm; try lia; congruence.
Qed.

(** Running the update twice on the same reading changes nothing the
    second time: the duplicate events the effect subscribes to (viewport
    resize together with window resize, say) are harmless. *)
Theorem update_idempotent (d : Dom) (s : KeyboardState) :
  updateVisualViewport d (updateVisualViewport d s)
  = updateVisualViewport d s.
Proof.
  destruct (settled_stable d (updateVisualViewport d s) (update_settles d s))
    as [Hsticky Hflag]; [done|].
  rewrite (update_record d (updateVisualViewport d s)).
  rewrite Hsticky, Hflag. symmetry. apply update_record.
Qed.

(** While no reading finds a text input focused, the keyboard inset stays
    0 throughout the run, however large the measured insets are. *)
Theorem never_opens_unfocused (evs : list Event) :
  Forall unfocused evs →
  stickyKeyboardInset (run evs initialState) = 0.
Proof.
  assert (H0 : stickyKeyboardInset initialState = 0) by done.
  revert H0. generalize initialState. intros s Hs Hevs. revert s Hs.
  induction Hevs as [|e evs He _ IH]; intros s Hs; [done|].
  cbn. apply IH. clear IH.
  assert (Hupdate : ∀ d s0, isTextTarget d = false →
            stickyKeyboardInset s0 = 0 →
            stickyKeyboardInset (updateVisualViewport d s0) = 0).
  { intros d s0 Hd H0. update_cases; try lia; congruence. }
  destruct e as [d|target d|target related]; cbn [step unfocused] in *.
  - by apply Hupdate.
  - unfold handleFocusIn. destruct target; [|done].
    apply Hupdate; [done|]. by destruct (isTextElement _).
  - unfold handleFocusOut. destruct target; [|done].
    destruct (isTextElement (Some _)); [|done].
    by destruct (isTextElement related).
Qed.

Lemma never_opens_unfocused_witness :
  stickyKeyboardInset
    (run [ViewportUpdate (reading 400 800 None);
          FocusIn (Some buttonElement) (reading 300 800 (Some buttonElement));
          FocusOut (Some buttonElement) None]
       initialState) = 0.
Proof.
  apply never_opens_unfocused. repeat constructor.
Defined.

(** A focus-in on a text input re-arms the heuristic: whatever the state,
    also right after a force-close, when the reading that follows finds a
    text input focused over a positive measured inset, the sticky inset
    becomes that inset and the ignore flag is clear. *)
Theorem focus_in_reopens
    (target : Element) (d : Dom) (s : KeyboardState) :
  isTextElement (Some target) = true →
  isTextTarget d = true →
  0 < measuredInset d →
  stickyKeyboardInset (handleFocusIn (Some target) d s) = measuredInset d
  ∧ ignoreOpenUntilZero (handleFocusIn (Some target) d s) = false.
Proof.
  intros Htarget Hd Hm. unfold handleFocusIn. rewrite Htarget.
  update_cases; split; try lia; try congruence; try done.
Qed.

Lemma focus_in_reopens_witness :
  let s := forceKeyboardClosed
             (run [ViewportUpdate (reading 500 800 (Some inputElement))]
                initialState) in
  let d := reading 520 800 (Some inputElement) in
  (stickyKeyboardInset (updateVisualViewport d s) = 0
   ∧ ignoreOpenUntilZero (updateVisualViewport d s) = true)
  ∧ (stickyKeyboardInset (handleFocusIn (Some inputElement) d s)
     = measuredInset d
     ∧ ignoreOpenUntilZero (handleFocusIn (Some inputElement) d s) = false).
Proof.
  intros s d. split; [vm_compute; done|].
  apply (focus_in_reopens inputElement d s); vm_compute; reflexivity.
Defined.

(** After a force-close the keyboard stays closed through any number of
    viewport updates that measure a non-zero inset: the sticky and the
    published inset stay 0 and the ignore flag stays set. *)
Theorem force_close_holds (s : KeyboardState) (ds : list Dom) :
  Forall (fun d => measuredInset d ≠ 0) ds →
  let s' := run (ViewportUpdate <$> ds) (forceKeyboardClosed s) in
  stickyKeyboardInset s' = 0
  ∧ ignoreOpenUntilZero s' = true
  ∧ oc_keyboard_inset s' = Some 0.
Proof.
  intros Hds.
  assert (Hinv : stickyKeyboardInset (forceKeyboardClosed s) = 0
                 ∧ ignoreOpenUntilZero (forceKeyboardClosed s) = true
                 ∧ oc_keyboard_inset (forceKeyboardClosed s) = Some 0)
    by done.
  revert Hinv. generalize (forceKeyboardClosed s). clear s.
  induction Hds as [|d ds Hd _ IH]; intros s Hs; [done|].
  cbn. apply IH. destruct Hs as (H1 & H2 & H3).
  update_cases; repeat split; try done; try lia; congruence.
Qed.

Lemma force_close_holds_witness :
  let s' := run (ViewportUpdate <$> [reading 520 800 (Some inputElement);
                                     reading 560 800 None])
              (forceKeyboardClosed initialState) in
  stickyKeyboardInset s' = 0
  ∧ ignoreOpenUntilZero s' = true
  ∧ oc_keyboard_inset s' = Some 0.
Proof.
  apply (force_close_holds initialState
           [reading 520 800 (Some inputElement); reading 560 800 None]).
  repeat constructor; vm_compute; discriminate.
Defined.

(** ** The debounced resize handler *)

(** No timer is pending, or exactly the one held in [timeoutId]. *)
Lemma one_pending_step st e :
  (pendingTimers st = ∅
   ∨ ∃ id, pendingTimers st = {[ id ]} ∧ timeoutId st = Some id) →
  pendingTimers (resizeStep st e) = ∅
  ∨ ∃ id, pendingTimers (resizeStep st e) = {[ id ]}
          ∧ timeoutId (resizeStep st e) = Some id.
Proof.
  intros Hst. destruct st as [tid lis pending calls]. cbn in Hst.
  destruct e as [new|id|]; cbn [resizeStep listening].
  - destruct lis; [|done]. right. exists new.
    unfold handleResize.
    destruct Hst as [->|(id & -> & ->)]; [destruct tid|]; cbn;
      (split; [set_solver | done]).
  - unfold timerElapsed. cbn. case_bool_decide as Hin; [|done]. left. cbn.
    destruct Hst as [->|(id' & -> & ->)]; set_solver.
  - left. unfold cleanupResize. cbn.
    destruct Hst as [->|(id' & -> & ->)]; [destruct tid|]; cbn; set_solver.
Qed.

Lemma one_pending_run evs st :
  (pendingTimers st = ∅
   ∨ ∃ id, pendingTimers st = {[ id ]} ∧ timeoutId st = Some id) →
  pendingTimers (resizeRun evs st) = ∅
  ∨ ∃ id, pendingTimers (resizeRun evs st) = {[ id ]}
          ∧ timeoutId (resizeRun evs st) = Some id.
Proof.
  revert st. induction evs as [|e evs IH]; intros st Hst; [done|].
  cbn. apply IH. by apply one_pending_step.
Qed.

Lemma one_pending_mounted evs :
  pendingTimers (resizeRun evs mountedResize) = ∅
  ∨ ∃ id, pendingTimers (resizeRun evs mountedResize) = {[ id ]}
          ∧ timeoutId (resizeRun evs mountedResize) = Some id.
Proof. apply one_pending_run. by left. Qed.

Lemma updates_bounded_step st e :
  (pendingTimers st = ∅
   ∨ ∃ id, pendingTimers st = {[ id ]} ∧ timeoutId st = Some id) →
  (widthUpdates (resizeStep st e) + size (pendingTimers (resizeStep st e))
   ≤ widthUpdates st + size (pendingTimers st) + resizes [e])%nat.
Proof.
  intros Hst. destruct st as [tid lis pending calls]. cbn in Hst.
  assert (Hsame : ∀ id : nat, ({[ id ]} ∖ {[ id ]} : gset nat) = ∅)
    by set_solver.
  assert (Hfresh : ∀ id : nat, (∅ ∪ {[ id ]} : gset nat) = {[ id ]})
    by set_solver.
  assert (Hclear : ∀ id : nat, (∅ ∖ {[ id ]} : gset nat) = ∅) by set_solver.
  destruct e as [new|id|]; cbn [resizeStep listening resizes List.filter length].
  - destruct lis; [|lia]. unfold handleResize.
    destruct Hst as [->|(id & -> & ->)]; [destruct tid|]; cbn;
      rewrite ?Hsame, ?Hclear, ?Hfresh, ?size_empty, ?size_singleton; lia.
  - unfold timerElapsed. cbn. case_bool_decide as Hin; [|cbn; lia]. cbn.
    destruct Hst as [->|(id' & -> & ->)]; [set_solver|].
    assert (id = id') as -> by set_solver.
    rewrite Hsame, size_empty, size_singleton. lia.
  - unfold cleanupResize. cbn.
    destruct Hst as [->|(id' & -> & ->)]; [destruct tid|]; cbn;
      rewrite ?Hsame, ?Hclear, ?size_empty, ?size_singleton; lia.
Qed.

Lemma resizes_cons e evs : resizes (e :: evs) = (resizes [e] + resizes evs)%nat.
Proof. unfold resizes. cbn. by destruct e. Qed.

(** The handler debounces: in every run from the mounted state at most one
    timer is pending, namely the one whose id is in [timeoutId], and the
    sidebar widths are recomputed at most once per resize event. *)
Theorem resize_at_most_one_timer (evs : list ResizeEvent) :
  let st := resizeRun evs mountedResize in
  (size (pendingTimers st) ≤ 1)%nat
  ∧ (∀ id, id ∈ pendingTimers st → timeoutId st = Some id)
  ∧ (widthUpdates st + size (pendingTimers st) ≤ resizes evs)%nat.
Proof.
  cbn zeta. pose proof (one_pending_mounted evs) as Hone.
  split; [|split].
  - destruct Hone as [->|(id & -> & _)];
      rewrite ?size_empty, ?size_singleton; lia.
  - intros id Hin. destruct Hone as [Hnone|(id' & Hone & Hid)].
    + rewrite Hnone in Hin. set_solver.
    + rewrite Hone in Hin. by assert (id = id') as -> by set_solver.
  - clear Hone.
    assert (Hgen : ∀ st,
      (pendingTimers st = ∅
       ∨ ∃ id, pendingTimers st = {[ id ]} ∧ timeoutId st = Some id) →
      (widthUpdates (resizeRun evs st) + size (pendingTimers (resizeRun evs st))
       ≤ widthUpdates st + size (pendingTimers st) + resizes evs)%nat).
    { induction evs as [|e evs IH]; intros st Hst; [cbn; lia|].
      rewrite resizes_cons. cbn [resizeRun fold_left].
      pose proof (updates_bounded_step st e Hst).
      pose proof (IH (resizeStep st e) (one_pending_step st e Hst)).
      unfold resizeRun in *. lia. }
    specialize (Hgen mountedResize (or_introl eq_refl)).
    cbn in Hgen. rewrite size_empty in Hgen.
    unfold resizeRun in *. lia.
Qed.

Lemma resize_at_most_one_timer_witness :
  timeoutId (resizeRun [WindowResize 3; WindowResize 4] mountedResize)
  = Some 4%nat.
Proof.
  apply (proj1 (proj2 (resize_at_most_one_timer
                         [WindowResize 3; WindowResize 4]))).
  apply (bool_decide_unpack (4%nat ∈ _)). vm_compute. exact I.
Defined.

Lemma resize_burst ids st :
  listening st = true →
  (pendingTimers st = ∅
   ∨ ∃ id, pendingTimers st = {[ id ]} ∧ timeoutId st = Some id) →
  listening (resizeRun (WindowResize <$> ids) st) = true
  ∧ widthUpdates (resizeRun (WindowResize <$> ids) st) = widthUpdates st.
Proof.
  revert st. induction ids as [|id ids IH]; intros st Hl Hp; [done|].
  cbn [fmap list_fmap resizeRun fold_left].
  pose proof (one_pending_step st (WindowResize id) Hp) as Hp'.
  assert (Hstep : listening (resizeStep st (WindowResize id)) = true
                  ∧ widthUpdates (resizeStep st (WindowResize id))
                    = widthUpdates st).
  { cbn. rewrite Hl. unfold handleResize. by destruct (timeoutId st). }
  destruct Hstep as [Hl' Hw'].
  destruct (IH _ Hl' Hp') as [H1 H2]. unfold resizeRun in *.
  split; [done | congruence].
Qed.

(** A burst of resize events, however long, leaves exactly one timer
    pending, the one set by the last of them, and when that timer elapses
    the widths are recomputed exactly once for the whole burst. *)
Theorem resize_burst_one_update
    (evs : list ResizeEvent) (ids : list nat) (id : nat) :
  let st := resizeRun evs mountedResize in
  let st' := resizeRun (WindowResize <$> (ids ++ [id])) st in
  listening st = true →
  pendingTimers st' = {[ id ]}
  ∧ widthUpdates st' = widthUpdates st
  ∧ widthUpdates (resizeStep st' (TimerElapsed id)) = S (widthUpdates st)
  ∧ pendingTimers (resizeStep st' (TimerElapsed id)) = ∅.
Proof.
  cbn zeta. intros Hlisten.
  pose proof (one_pending_mounted evs) as Hone.
  revert Hlisten Hone. generalize (resizeRun evs mountedResize).
  intros st Hlisten Hone.
  rewrite fmap_app. unfold resizeRun at 1 2 3 4.
  rewrite fold_left_app. cbn [fmap list_fmap fold_left].
  fold (resizeRun (WindowResize <$> ids) st).
  destruct (resize_burst ids st Hlisten Hone) as [Hl Hw].
  pose proof (one_pending_run (WindowResize <$> ids) st Hone) as Hp.
  revert Hl Hw Hp. generalize (resizeRun (WindowResize <$> ids) st).
  intros [tid lis pending calls]. cbn. intros -> <- Hp.
  assert (Hpending : pendingTimers
            (handleResize id {| timeoutId := tid; listening := true;
                                pendingTimers := pending;
                                widthUpdates := calls |}) = {[ id ]}).
  { unfold handleResize.
    destruct Hp as [->|(old & -> & ->)]; [destruct tid|]; cbn; set_solver. }
  assert (Hcalls : widthUpdates
            (handleResize id {| timeoutId := tid; listening := true;
                                pendingTimers := pending;
                                widthUpdates := calls |}) = calls).
  { unfold handleResize. by destruct tid. }
  split; [done|]. split; [done|].
  unfold timerElapsed. rewrite Hpending.
  rewrite bool_decide_eq_true_2 by set_solver.
  cbn [widthUpdates pendingTimers]. rewrite Hcalls.
  split; [done | set_solver].
Qed.

Lemma resize_burst_one_update_witness :
  let st := resizeRun [WindowResize 7; TimerElapsed 7] mountedResize in
  let st' := resizeRun (WindowResize <$> ([8; 9] ++ [11]))%nat st in
  pendingTimers st' = {[ 11%nat ]}
  ∧ widthUpdates st' = widthUpdates st
  ∧ widthUpdates (resizeStep st' (TimerElapsed 11)) = S (widthUpdates st)
  ∧ pendingTimers (resizeStep st' (TimerElapsed 11)) = ∅.
Proof.
  apply (resize_burst_one_update [WindowResize 7; TimerElapsed 7]
           [8; 9]%nat 11%nat).
  reflexivity.
Defined.

(** After the cleanup of the effect nothing is left behind: whatever
    happens next, no timer is pending, no resize is listened to and the
    widths are not recomputed again. *)
Theorem resize_cleanup_final (before after : list ResizeEvent) :
  let st := resizeRun before mountedResize in
  let st' := resizeRun (before ++ Cleanup :: after) mountedResize in
  pendingTimers st' = ∅
  ∧ listening st' = false
  ∧ widthUpdates st' = widthUpdates st.
Proof.
  cbn zeta. pose proof (one_pending_mounted before) as Hone.
  unfold resizeRun in *. rewrite fold_left_app. cbn [fold_left].
  revert Hone. generalize (fold_left resizeStep before mountedResize).
  intros st Hone.
  assert (Hclean : pendingTimers (resizeStep st Cleanup) = ∅
                   ∧ listening (resizeStep st Cleanup) = false
                   ∧ widthUpdates (resizeStep st Cleanup) = widthUpdates st).
  { cbn. unfold cleanupResize. cbn.
    destruct Hone as [Hnone|(id & Hid & Ht)].
    - destruct (timeoutId st); cbn; rewrite Hnone; repeat split; set_solver.
    - rewrite Ht. cbn. rewrite Hid. repeat split. set_solver. }
  revert Hclean. generalize (resizeStep st Cleanup). generalize (widthUpdates st).
  clear st Hone. intros n st Hst. revert st Hst.
  induction after as [|e after IH]; intros st Hst; [done|].
  cbn [fold_left]. apply IH. destruct Hst as (Hp & Hl & Hw).
  destruct e as [new|id|]; cbn [resizeStep].
  - by rewrite Hl.
  - unfold timerElapsed. rewrite Hp.
    rewrite bool_decide_eq_false_2 by set_solver. done.
  - unfold cleanupResize. cbn.
    destruct (timeoutId st); cbn; rewrite Hp; repeat split; try done;
      set_solver.
Qed.

(** ** The main views *)

(** Which tab mounts which secondary view, and which tab shows the chat. *)
Lemma secondaryView_tabs activeMainTab :
  (secondaryView activeMainTab = Some GitView ↔ activeMainTab = lit "git")
  ∧ (secondaryView activeMainTab = Some DiffView
     ↔ activeMainTab = lit "diff")
  ∧ (secondaryView activeMainTab = Some TerminalView
     ↔ activeMainTab = lit "terminal")
  ∧ (is_Some (secondaryView activeMainTab)
     ↔ activeMainTab ∈ [lit "git"; lit "diff"; lit "terminal"]).
Proof.
  unfold secondaryView, streq.
  repeat case_bool_decide; subst;
    (split; [|split; [|split]]); split; intros Hx;
    try done; try (by destruct Hx); try (by eexists);
    try (exfalso; vm_compute in Hx; congruence);
    try set_solver.
Qed.

Lemma isChatActive_tab activeMainTab :
  isChatActive activeMainTab = true ↔ activeMainTab = lit "chat".
Proof. unfold isChatActive, streq. apply bool_decide_eq_true. Qed.

(** The chat pane is visible exactly on the chat tab and a secondary view
    exactly on the git, diff and terminal tabs (the git, diff and terminal
    view respectively), in both layouts and while the settings are closed;
    so for no tab and no layout both show at once, and on each of these
    four tabs, with the settings closed, exactly one shows. *)
Theorem main_views_exclusive
    (isMobile isSidebarOpen isSessionSwitcherOpen isSettingsDialogOpen : bool)
    (activeMainTab : jsstring) :
  let r := renderLayout isMobile isSidebarOpen isSessionSwitcherOpen
             isSettingsDialogOpen activeMainTab in
  (chatVisible r = true
   ↔ activeMainTab = lit "chat" ∧ isSettingsDialogOpen = false)
  ∧ (secondaryVisible r = true
     ↔ activeMainTab ∈ [lit "git"; lit "diff"; lit "terminal"]
       ∧ isSettingsDialogOpen = false)
  ∧ (secondary (mainPane r) = Some GitView ↔ activeMainTab = lit "git")
  ∧ (secondary (mainPane r) = Some DiffView ↔ activeMainTab = lit "diff")
  ∧ (secondary (mainPane r) = Some TerminalView
     ↔ activeMainTab = lit "terminal")
  ∧ chatVisible r && secondaryVisible r = false
  ∧ (isSettingsDialogOpen = false →
     activeMainTab ∈ [lit "chat"; lit "git"; lit "diff"; lit "terminal"] →
     xorb (chatVisible r) (secondaryVisible r) = true).
Proof.
  cbn zeta.
  destruct (secondaryView_tabs activeMainTab) as (Hgit & Hdiff & Hterm & Hany).
  pose proof (isChatActive_tab activeMainTab) as Hchat.
  assert (Hpane : mainPane (renderLayout isMobile isSidebarOpen
                    isSessionSwitcherOpen isSettingsDialogOpen activeMainTab)
                  = renderMain activeMainTab) by (by destruct isMobile).
  assert (Hconcealed : contentConcealed (renderLayout isMobile isSidebarOpen
                    isSessionSwitcherOpen isSettingsDialogOpen activeMainTab)
                  = isSettingsDialogOpen)
    by (by destruct isMobile, isSettingsDialogOpen).
  unfold chatVisible, secondaryVisible. rewrite Hpane, Hconcealed.
  cbn [renderMain chatInvisible secondary].
  assert (Hboth : isChatActive activeMainTab = true →
                  secondaryView activeMainTab = None).
  { intros H1. apply Hchat in H1 as ->. reflexivity. }
  split; [|split; [|split; [|split; [|split; [|split]]]]];
    try assumption.
  - rewrite andb_true_iff, !negb_true_iff, negb_false_iff, Hchat. tauto.
  - rewrite andb_true_iff, negb_true_iff, bool_decide_eq_true, Hany. tauto.
  - destruct isSettingsDialogOpen; [done|]. cbn.
    destruct (isChatActive activeMainTab) eqn:Hc; [|done].
    rewrite (Hboth eq_refl). reflexivity.
  - intros -> Htab. cbn.
    apply elem_of_cons in Htab as [->|Htab]; [reflexivity|].
    apply Hany in Htab. destruct Htab as [view Hview]. rewrite Hview.
    destruct (isChatActive activeMainTab) eqn:Hc; [|reflexivity].
    rewrite (Hboth eq_refl) in Hview. discriminate.
Qed.

Lemma main_views_exclusive_witness :
  let r := renderLayout true false false false (lit "diff") in
  chatVisible r && secondaryVisible r = false
  ∧ xorb (chatVisible r) (secondaryVisible r) = true.
Proof.
  intros r.
  destruct (main_views_exclusive true false false false (lit "diff"))
    as (_ & _ & _ & _ & _ & Hnot & Hone).
  split; [exact Hnot|]. apply Hone; [reflexivity|].
  apply list_elem_of_further, list_elem_of_further, list_elem_of_here.
Defined.

(** While the settings dialog is open the settings view is rendered and
    neither the header, the chat pane nor a secondary view is visible, in
    both layouts; the fixed sessions button is hidden only in the desktop
    layout and stays rendered in the mobile one. *)
Theorem settings_conceal_content
    (isMobile isSidebarOpen isSessionSwitcherOpen : bool)
    (activeMainTab : jsstring) :
  let r := renderLayout isMobile isSidebarOpen isSessionSwitcherOpen true
             activeMainTab in
  settingsShown r = true
  ∧ headerVisible r = false
  ∧ chatVisible r = false
  ∧ secondaryVisible r = false
  ∧ fixedSessionsButton r = isMobile.
Proof. by destruct isMobile. Qed.

End MainLayoutShellProofs.

(* ===================================================================== *)
(** * Further properties of BranchPickerDialog.tsx *)
(* ===================================================================== *)

Module BranchPickerDialogPartsProofs.

Import BranchPickerDialog BranchPickerDialogParts JSProofs
  BranchPickerDialogProofs.

#[local] Set Warnings "-clear-no-such-hyp".

(** ** Expanding and collapsing *)

(** Toggling a project flips its membership in the expanded set and that
    of no other project, and toggling it twice restores the state. *)
Theorem toggleProject_flips (projectId other : jsstring) (st : State) :
  toggleProject projectId (toggleProject projectId st) = st
  ∧ (projectId ∈ expandedProjects (toggleProject projectId st)
     ↔ projectId ∉ expandedProjects st)
  ∧ (other ≠ projectId →
     (other ∈ expandedProjects (toggleProject projectId st)
      ↔ other ∈ expandedProjects st)).
Proof.
  destruct st as [query data expanded creating].
  unfold toggleProject, setExpandedProjects. cbn.
  destruct (decide (projectId ∈ expanded)) as [Hin|Hout].
  - rewrite (bool_decide_eq_true_2 _ Hin).
    rewrite bool_decide_eq_false_2 by set_solver.
    split; [f_equal; apply set_eq; intros x;
            destruct (decide (x = projectId)); set_solver|].
    split; [set_solver|]. intros Hne. set_solver.
  - rewrite (bool_decide_eq_false_2 _ Hout).
    rewrite bool_decide_eq_true_2 by set_solver.
    split; [f_equal; set_solver|].
    split; [set_solver|]. intros Hne. set_solver.
Qed.

Lemma toggleProject_flips_witness :
  lit "b" ∈ expandedProjects
              (toggleProject (lit "a")
                 (toggleProject (lit "b") initialState))
  ↔ lit "b" ∈ expandedProjects (toggleProject (lit "b") initialState).
Proof.
  apply (proj2 (proj2 (toggleProject_flips (lit "a") (lit "b")
                         (toggleProject (lit "b") initialState)))).
  vm_compute. discriminate.
Defined.

(** ** Opening and closing the dialog *)

Lemma find_active projects (a : jsstring) :
  match List.find (fun p => bool_decide (Some (id p) = Some a)) projects with
  | Some p => id p = a ∧ a ∈ id <$> projects
  | None => a ∉ id <$> projects
  end.
Proof.
  induction projects as [|p projects IH]; cbn; [set_solver|].
  case_bool_decide as Hp.
  - injection Hp as Hp. split; [done | set_solver].
  - destruct (List.find _ projects).
    + split; [apply IH | set_solver].
    + assert (id p ≠ a) by congruence. set_solver.
Qed.

Lemma openEffect_expanded projects active st :
  expandedProjects (openEffect true projects active st)
  = match List.find (fun p => bool_decide (Some (id p) = active)) projects with
    | Some p => {[ id p ]}
    | None => expandedProjects st
    end.
Proof.
  unfold openEffect. cbn [negb].
  set (st1 := match List.find _ projects with Some _ => _ | None => st end).
  assert (H1 : expandedProjects st1
    = match List.find (fun p => bool_decide (Some (id p) = active)) projects with
      | Some p => {[ id p ]}
      | None => expandedProjects st
      end).
  { subst st1. by destruct (List.find _ projects). }
  rewrite <- H1. generalize st1. clear.
  induction projects as [|p projects IH]; intros st; [done|].
  cbn. by rewrite IH.
Qed.

Lemma openEffect_rest projects active st :
  searchQuery (openEffect true projects active st) = searchQuery st
  ∧ creatingWorktree (openEffect true projects active st)
    = creatingWorktree st.
Proof.
  unfold openEffect. cbn [negb].
  set (st1 := match List.find _ projects with Some _ => _ | None => st end).
  assert (H1 : searchQuery st1 = searchQuery st
               ∧ creatingWorktree st1 = creatingWorktree st).
  { subst st1. by destruct (List.find _ projects). }
  destruct H1 as [<- <-]. generalize st1. clear.
  induction projects as [|p projects IH]; intros st; [done|].
  cbn. destruct (IH (setProjectData (markLoading (id p)) st)) as [-> ->].
  done.
Qed.

Lemma published_started_lookup projects m k :
  published (LoadStarted ∘ id <$> projects) m !! k
  = if bool_decide (k ∈ id <$> projects) then Some loadingState else m !! k.
Proof.
  revert m. induction projects as [|p projects IH]; intros m; [done|].
  cbn [fmap list_fmap published fold_left applyLoad compose].
  fold (published (LoadStarted ∘ id <$> projects) (markLoading (id p) m)).
  rewrite IH. unfold markLoading.
  repeat case_bool_decide; try done.
  - set_solver.
  - destruct (decide (k = id p)) as [->|Hne].
    + by rewrite lookup_insert_eq.
    + set_solver.
  - rewrite lookup_insert_ne; [done | set_solver].
Qed.

(** Opening the dialog marks every listed project as loading, whatever was
    loaded for it before, and leaves the states of unlisted projects
    alone; the expanded set becomes the active project alone when it is
    among the projects and is kept otherwise; the query and the in-flight
    key are kept.  Closing the dialog resets the query and nothing else,
    so the loaded states survive until the next opening. *)
Theorem openEffect_reloads
    (projects : list Project) (activeProjectId : option jsstring)
    (st : State) (k : jsstring) :
  let opened := openEffect true projects activeProjectId st in
  let closed := openEffect false projects activeProjectId st in
  (projectData opened !! k
   = if bool_decide (k ∈ id <$> projects) then Some loadingState
     else projectData st !! k)
  ∧ (expandedProjects opened
     = match activeProjectId with
       | Some a =>
           if bool_decide (a ∈ id <$> projects) then {[ a ]}
           else expandedProjects st
       | None => expandedProjects st
       end)
  ∧ searchQuery opened = searchQuery st
  ∧ creatingWorktree opened = creatingWorktree st
  ∧ closed = setSearchQuery [] st
  ∧ projectData closed = projectData st
  ∧ expandedProjects closed = expandedProjects st.
Proof.
  cbn zeta. split; [|split; [|split; [|split]]].
  - rewrite openEffect_published. apply published_started_lookup.
  - rewrite openEffect_expanded. destruct activeProjectId as [a|].
    + pose proof (find_active projects a) as Hfind.
      destruct (List.find _ projects) as [p|].
      * destruct Hfind as [Heq Hin].
        case_bool_decide; [by rewrite Heq | done].
      * case_bool_decide; done.
    + destruct (List.find _ projects) as [p|] eqn:Hfind; [|done].
      apply find_some in Hfind as [_ Hfind].
      by apply bool_decide_eq_true in Hfind.
  - apply openEffect_rest.
  - apply openEffect_rest.
  - done.
Qed.

(** ** Load events *)

Lemma applyLoad_lookup m e pid :
  applyLoad m e !! pid
  = if bool_decide (eventProject e = pid) then Some (eventState e)
    else m !! pid.
Proof.
  destruct e as [p|p b w|p err]; cbn;
    unfold markLoading, markLoaded, markFailed;
    case_bool_decide; subst;
    by rewrite ?lookup_insert_eq, ?lookup_insert_ne.
Qed.

(** The published state of a project is the one stored by the last load
    event for that project, whatever happened to other projects and in
    whatever order; a completion that arrives late overwrites a newer
    loading state, since completions carry no request identity. *)
Theorem published_by_last_event
    (evs : list LoadEvent) (m : gmap jsstring ProjectBranchData)
    (pid : jsstring) :
  published evs m !! pid
  = match last (List.filter (fun e => bool_decide (eventProject e = pid)) evs)
    with
    | Some e => Some (eventState e)
    | None => m !! pid
    end.
Proof.
  induction evs as [|e evs IH] using rev_ind; [done|].
  rewrite published_snoc, applyLoad_lookup, List.filter_app. cbn.
  case_bool_decide.
  - by rewrite last_snoc.
  - by rewrite app_nil_r.
Qed.

(** ** The in-flight indicator *)

Lemma rowKey_cons c projectId branchName :
  rowKey (c :: projectId) branchName = c :: rowKey projectId branchName.
Proof. reflexivity. Qed.

Lemma rowKey_nil branchName : rowKey [] branchName = colon :: branchName.
Proof. reflexivity. Qed.

Lemma rowKey_injective id1 b1 id2 b2 :
  colon ∉ id1 → colon ∉ id2 →
  rowKey id1 b1 = rowKey id2 b2 → id1 = id2 ∧ b1 = b2.
Proof.
  revert id2. induction id1 as [|c id1 IH]; intros id2 H1 H2 Hkey.
  - destruct id2 as [|c2 id2].
    + rewrite !rowKey_nil in Hkey. by injection Hkey as ->.
    + rewrite rowKey_nil, rowKey_cons in Hkey. injection Hkey as <- _.
      set_solver.
  - destruct id2 as [|c2 id2].
    + rewrite rowKey_nil, rowKey_cons in Hkey. injection Hkey as -> _.
      set_solver.
    + rewrite !rowKey_cons in Hkey. injection Hkey as -> Hkey.
      destruct (IH id2) as [-> ->]; [set_solver | set_solver | done | done].
Qed.

(** While a creation is pending, the rows whose key equals the stored key
    show the in-flight indicator; when project ids contain no colon the
    key is unambiguous and that is the row of the project and branch
    being created, and no other. *)
Theorem in_flight_row_unique
    (st : State) (project other : Project) (branchName otherBranch : jsstring)
    (data : option ProjectBranchData) :
  colon ∉ id project →
  colon ∉ id other →
  let pending :=
    setCreatingWorktree (Some (rowKey (id project) branchName)) st in
  row_isCreating (renderRow pending other data otherBranch) = true
  ↔ id other = id project ∧ otherBranch = branchName.
Proof.
  intros Hp Ho. cbn. rewrite bool_decide_eq_true. split.
  - intros [= Hkey]. symmetry in Hkey.
    by destruct (rowKey_injective _ _ _ _ Ho Hp Hkey).
  - by intros [-> ->].
Qed.

(** With a colon in a project id two different rows can share a key. *)
Example rowKey_collision :
  rowKey (lit "a:b") (lit "c") = rowKey (lit "a") (lit "b:c").
Proof. reflexivity. Qed.

Lemma in_flight_row_unique_witness :
  row_isCreating
    (renderRow
       (setCreatingWorktree (Some (rowKey (id projectA) (lit "main")))
          initialState)
       projectB None (lit "main")) = true
  ↔ id projectB = id projectA ∧ lit "main" = lit "main".
Proof.
  apply (in_flight_row_unique initialState projectA projectB
           (lit "main") (lit "main") None);
    vm_compute; intros H;
    repeat (apply elem_of_cons in H as [H|H]; [discriminate|]);
    by apply elem_of_nil in H.
Defined.

(** [handleCreateWorktree] is its first half followed by its second. *)
Lemma handleCreateWorktree_halves outcome project branchName w :
  handleCreateWorktree outcome project branchName w
  = (bind (beginCreateWorktree project branchName)
       (fun _ => settleCreateWorktree outcome project branchName)) w.
Proof. reflexivity. Qed.

(** The in-flight key is one cell shared by all rows.  When a second
    creation starts while a first is pending, the first row loses its
    indicator; and when the first settles, in either way, the key is
    cleared although the second creation is still pending, so that no row
    shows the indicator any more. *)
Theorem overlapping_creations
    (first second : Project) (branch1 branch2 : jsstring)
    (outcome1 : Completion unit) (w : World)
    (data : option ProjectBranchData) :
  let w1 := (beginCreateWorktree first branch1 w).2 in
  let w2 := (beginCreateWorktree second branch2 w1).2 in
  let w3 := (settleCreateWorktree outcome1 first branch1 w2).2 in
  creatingWorktree (component w2) = Some (rowKey (id second) branch2)
  ∧ (rowKey (id first) branch1 ≠ rowKey (id second) branch2 →
     row_isCreating (renderRow (component w2) first data branch1) = false)
  ∧ creatingWorktree (component w3) = None
  ∧ row_isCreating (renderRow (component w3) second data branch2) = false.
Proof.
  destruct w as [st log]. cbn.
  split; [done|]. split.
  - intros Hne. apply bool_decide_eq_false. congruence.
  - destruct outcome1 as [[]|err]; cbn; split; try done;
      by apply bool_decide_eq_false.
Qed.

Lemma overlapping_creations_witness :
  let w := {| component := initialState; effects := [] |} in
  let w1 := (beginCreateWorktree projectA (lit "main") w).2 in
  let w2 := (beginCreateWorktree projectB (lit "dev") w1).2 in
  row_isCreating (renderRow (component w2) projectA None (lit "main")) = false.
Proof.
  intros w w1 w2.
  apply (proj1 (proj2 (overlapping_creations projectA projectB
                         (lit "main") (lit "dev") (Normal tt) w None))).
  vm_compute. discriminate.
Defined.

(** ** What the dialog renders *)

Section Cards.

Variable toLowerCase : jsstring → jsstring.

Lemma gitRepoProjects_elem projects m p :
  p ∈ gitRepoProjects projects m
  ↔ p ∈ projects
    ∧ ∃ data, m !! id p = Some data
              ∧ truthy_opt (error data) = false
              ∧ (loading data = true ∨ is_Some (branches data)).
Proof.
  split.
  - intros Hp. split.
    + unfold gitRepoProjects in Hp.
      apply list_elem_of_In, filter_In in Hp. destruct Hp as [Hp _].
      by apply list_elem_of_In.
    + by apply gitRepoProjects_inv in Hp.
  - intros (Hp & data & Hdata & Herr & Hrest).
    unfold gitRepoProjects. apply list_elem_of_In, filter_In.
    split; [by apply list_elem_of_In|]. rewrite Hdata, Herr. cbn.
    destruct Hrest as [->|Hsome]; [done|].
    rewrite (bool_decide_eq_true_2 _ Hsome). apply orb_true_r.
Qed.

Lemma rendered_card_elem projects st card :
  card ∈ rendered_cards (render toLowerCase projects st)
  ↔ ∃ p, p ∈ gitRepoProjects projects (projectData st)
         ∧ card = renderCard toLowerCase st p.
Proof.
  split; [apply rendered_card_inv|].
  intros (p & Hp & ->). unfold render.
  destruct (gitRepoProjects projects (projectData st)) as [|q l] eqn:Hl.
  - by apply elem_of_nil in Hp.
  - cbn [length Nat.eqb rendered_cards].
    apply list_elem_of_In, in_map. by apply list_elem_of_In.
Qed.

(** A listed project has a card exactly when its published load state
    carries no error, that is while it is loading and once it has loaded;
    the dialog shows "No git repositories found" exactly when no listed
    project is in such a state. *)
Theorem card_iff_no_error
    (projects : list Project) (st : State) (evs : list LoadEvent)
    (p : Project) :
  projectData st = published evs (projectData initialState) →
  p ∈ projects →
  ((∃ card, card ∈ rendered_cards (render toLowerCase projects st)
            ∧ card_key card = id p)
   ↔ ∃ data, projectData st !! id p = Some data ∧ error data = None)
  ∧ (render toLowerCase projects st = NoRepositories
     ↔ ∀ q, q ∈ projects →
            ¬ ∃ data, projectData st !! id q = Some data
                      ∧ error data = None).
Proof.
  intros Hpub Hp.
  assert (Hkeep : ∀ q, q ∈ projects →
    (q ∈ gitRepoProjects projects (projectData st)
     ↔ ∃ data, projectData st !! id q = Some data ∧ error data = None)).
  { intros q Hq. rewrite gitRepoProjects_elem. split.
    - intros (_ & data & Hdata & _ & Hrest). exists data. split; [done|].
      pose proof Hdata as Hshape. rewrite Hpub in Hshape.
      apply published_shape in Hshape.
      destruct Hshape as [[-> _]|[(b & w & -> & _)|(err & -> & _)]];
        try done. cbn in Hrest. destruct Hrest as [?|[? ?]]; done.
    - intros (data & Hdata & Herr). split; [done|]. exists data.
      split; [done|]. rewrite Herr. split; [done|].
      pose proof Hdata as Hshape. rewrite Hpub in Hshape.
      apply published_shape in Hshape.
      destruct Hshape as [[-> _]|[(b & w & -> & _)|(err & -> & _)]];
        cbn in *; try done; eauto. }
  split.
  - split.
    + intros (card & Hcard & Hkey). apply rendered_card_elem in Hcard.
      destruct Hcard as (q & Hq & ->). cbn in Hkey.
      pose proof Hq as Hq'. apply gitRepoProjects_elem in Hq' as [Hq' _].
      apply Hkeep in Hq; [|done]. by rewrite <- Hkey.
    + intros Hdata. apply Hkeep in Hdata; [|done].
      exists (renderCard toLowerCase st p). split; [|done].
      apply rendered_card_elem. by exists p.
  - assert (Hrender : render toLowerCase projects st = NoRepositories
                      ↔ gitRepoProjects projects (projectData st) = []).
    { clear. unfold render.
      destruct (gitRepoProjects projects (projectData st)); cbn;
        split; done. }
    rewrite Hrender. clear Hrender. split.
    + intros Hnil q Hq Hdata. apply Hkeep in Hdata; [|done].
      rewrite Hnil in Hdata. by apply elem_of_nil in Hdata.
    + intros Hnone.
      assert (Hall : ∀ q, q ∉ gitRepoProjects projects (projectData st)).
      { intros q Hq. pose proof Hq as Hq'.
        apply gitRepoProjects_elem in Hq' as [Hq' _].
        apply (Hnone q Hq'). by apply Hkeep. }
      clear -Hall.
      destruct (gitRepoProjects projects (projectData st)) as [|q l];
        [done|]. exfalso. apply (Hall q). apply list_elem_of_here.
Qed.

End Cards.

Lemma card_iff_no_error_witness :
  let st := setProjectData (markLoaded (lit "a") listingA worktreesA)
              (openEffect true [projectA; projectB] (Some (lit "a"))
                 initialState) in
  (∃ card, card ∈ rendered_cards
                    (render toLowerCaseBasicLatin [projectA; projectB] st)
           ∧ card_key card = id projectB)
  ↔ ∃ data, projectData st !! id projectB = Some data ∧ error data = None.
Proof.
  intros st.
  apply (card_iff_no_error toLowerCaseBasicLatin [projectA; projectB] st
           [LoadStarted (lit "a"); LoadStarted (lit "b");
            LoadResolved (lit "a") listingA worktreesA] projectB).
  - vm_compute. reflexivity.
  - apply list_elem_of_further, list_elem_of_here.
Defined.

Section Rows.

Variable toLowerCase : jsstring → jsstring.

Lemma localBranches_elem data query b :
  b ∈ localBranches toLowerCase data query →
  b ∈ allBranches data
  ∧ ¬ lit "remotes/" `prefix_of` b
  ∧ b ∉ worktreeBranches (dataWorktrees data).
Proof.
  unfold localBranches. fold (dataWorktrees data).
  rewrite filterBranches_filter, list_elem_of_In, !filter_In.
  intros [[[Hin _] Hremote] Hbacked].
  split; [by apply list_elem_of_In|]. split.
  - rewrite <- startsWith_prefix. by apply negb_true_iff, not_true_iff_false in Hremote.
  - by apply negb_true_iff, bool_decide_eq_false in Hbacked.
Qed.

(** When a card lists branches, the card is expanded and its project is not
    loading, the list is not empty, the count in the card header is the
    number of rows, and every row is a branch of the project's listing
    that is neither remote-tracking nor checked out in a worktree. *)
Theorem branch_rows_consistent
    (projects : list Project) (st : State) (card : ProjectCard)
    (rows : list BranchRow) :
  card ∈ rendered_cards (render toLowerCase projects st) →
  card_body card = BranchRows rows →
  rows ≠ []
  ∧ card_count card = Some (length rows)
  ∧ card_spinner card = false
  ∧ card_key card ∈ expandedProjects st
  ∧ row_branchName <$> rows
    = localBranches toLowerCase (projectData st !! card_key card)
        (searchQuery st)
  ∧ ∀ row, row ∈ rows →
      row_branchName row ∈ allBranches (projectData st !! card_key card)
      ∧ ¬ lit "remotes/" `prefix_of` row_branchName row
      ∧ row_branchName row
        ∉ worktreeBranches (dataWorktrees (projectData st !! card_key card)).
Proof.
  intros Hcard Hbody. apply rendered_card_inv in Hcard.
  destruct Hcard as (p & _ & ->). revert Hbody.
  unfold renderCard.
  cbn [card_body card_count card_spinner card_key].
  set (data := projectData st !! id p).
  set (names := localBranches toLowerCase data (searchQuery st)).
  destruct (negb (bool_decide (id p ∈ expandedProjects st))) eqn:Hexp;
    [done|].
  destruct (match data with Some d => loading d | None => false end)
    eqn:Hload; [done|].
  destruct (truthy_opt (data ≫= error)); [done|].
  destruct (length names =? 0)%nat eqn:Hlen; [done|].
  intros [= <-].
  assert (Hnames : row_branchName <$> (renderRow st p data <$> names) = names).
  { generalize names. intros l.
    induction l as [|b l IH]; [done|]. cbn. by rewrite IH. }
  assert (Hsome : is_Some (data ≫= branches)).
  { destruct (data ≫= branches) as [b|] eqn:Hb; [done|]. exfalso.
    assert (Hempty : names = []).
    { apply elem_of_nil_inv. intros b Hin.
      apply localBranches_elem in Hin as [Hin _].
      unfold allBranches in Hin. rewrite Hb in Hin.
      by apply elem_of_nil in Hin. }
    rewrite Hempty in Hlen. done. }
  split; [|split; [|split; [|split; [|split]]]].
  - intros Hnil. apply Nat.eqb_neq in Hlen. apply Hlen.
    change (renderRow st p data <$> names = []) in Hnil.
    by apply fmap_nil_inv in Hnil as ->.
  - destruct Hsome as [b ->]. by rewrite length_map.
  - done.
  - apply negb_false_iff in Hexp. by apply bool_decide_eq_true in Hexp.
  - exact Hnames.
  - intros row Hrow.
    assert (Hin : row_branchName row ∈ names).
    { rewrite <- Hnames. by apply list_elem_of_fmap_2. }
    by apply localBranches_elem in Hin.
Qed.

(** For published load states a card shows either the spinner or the
    branch count, never both and never neither; under the spinner the body
    is collapsed or the loading text. *)
Theorem spinner_or_count
    (projects : list Project) (st : State) (evs : list LoadEvent)
    (card : ProjectCard) :
  projectData st = published evs (projectData initialState) →
  card ∈ rendered_cards (render toLowerCase projects st) →
  (card_spinner card = true ∧ card_count card = None
   ∧ (card_body card = Collapsed ∨ card_body card = LoadingText))
  ∨ (card_spinner card = false ∧ is_Some (card_count card)
     ∧ card_body card ≠ LoadingText).
Proof.
  intros Hpub Hcard. apply rendered_card_inv in Hcard.
  destruct Hcard as (p & Hp & ->). apply gitRepoProjects_inv in Hp.
  destruct Hp as (data & Hdata & _ & Hrest).
  pose proof Hdata as Hshape. rewrite Hpub in Hshape.
  apply published_shape in Hshape.
  unfold renderCard. cbn [card_body card_count card_spinner].
  rewrite Hdata.
  destruct Hshape as [[-> _]|[(b & w & -> & _)|(err & -> & _)]]; cbn.
  - left. repeat split. destruct (negb _); auto.
  - right. repeat split; [done|].
    repeat match goal with
    | |- context [if ?c then _ else _] => destruct c
    end; done.
  - cbn in Hrest. destruct Hrest as [?|[? ?]]; done.
Qed.

End Rows.

Lemma branch_rows_consistent_witness :
  let st := setProjectData (markLoaded (lit "a") listingA worktreesA)
              (openEffect true [projectA] (Some (lit "a")) initialState) in
  let card := renderCard toLowerCaseBasicLatin st projectA in
  let rows := renderRow st projectA (Some loadedA)
                <$> [lit "main"; lit "Feature/X"] in
  rows ≠ [] ∧ card_count card = Some (length rows).
Proof.
  intros st card rows.
  destruct (branch_rows_consistent toLowerCaseBasicLatin [projectA] st
              card rows) as (H1 & H2 & _).
  - vm_compute. apply list_elem_of_here.
  - vm_compute. reflexivity.
  - split; [exact H1 | exact H2].
Defined.

Lemma spinner_or_count_witness :
  let st := openEffect true [projectA] (Some (lit "a")) initialState in
  let card := renderCard toLowerCaseBasicLatin st projectA in
  (card_spinner card = true ∧ card_count card = None
   ∧ (card_body card = Collapsed ∨ card_body card = LoadingText))
  ∨ (card_spinner card = false ∧ is_Some (card_count card)
     ∧ card_body card ≠ LoadingText).
Proof.
  intros st card.
  apply (spinner_or_count toLowerCaseBasicLatin [projectA] st
           [LoadStarted (lit "a")] card).
  - vm_compute. reflexivity.
  - vm_compute. apply list_elem_of_here.
Defined.

(** ** The title of a card *)

Lemma split_nonempty sep s : split sep s ≠ [].
Proof.
  destruct s as [|c s]; cbn; [done|].
  destruct (c =? sep)%N; [done|]. by destruct (split sep s).
Qed.

(** Splitting loses nothing: joining the segments gives the string back. *)
Lemma join_split sep s : join sep (split sep s) = s.
Proof.
  induction s as [|c s IH]; [done|]. cbn [split].
  pose proof (split_nonempty sep s) as Hne.
  destruct (c =? sep)%N eqn:Hc.
  - apply N.eqb_eq in Hc as ->. cbn [join].
    destruct (split sep s) as [|segment segments]; [done|].
    cbn [app]. by rewrite IH.
  - destruct (split sep s) as [|segment segments]; [done|].
    destruct segments as [|next segments]; cbn in *; by rewrite <- IH.
Qed.

Lemma split_no_sep sep s segment :
  segment ∈ split sep s → sep ∉ segment.
Proof.
  revert segment. induction s as [|c s IH]; intros segment; cbn [split].
  - intros H. apply list_elem_of_singleton in H as ->. apply not_elem_of_nil.
  - pose proof (split_nonempty sep s) as Hne.
    destruct (c =? sep)%N eqn:Hc.
    + intros H. apply elem_of_cons in H as [->|H];
        [apply not_elem_of_nil | by apply IH].
    + destruct (split sep s) as [|first segments]; [done|].
      apply N.eqb_neq in Hc.
      intros H. apply elem_of_cons in H as [->|H].
      * intros Hin. apply elem_of_cons in Hin as [->|Hin]; [done|].
        apply (IH first); [apply list_elem_of_here | done].
      * apply IH. by apply list_elem_of_further.
Qed.

Lemma join_snoc sep init segment :
  join sep (init ++ [segment])
  = match init with
    | [] => segment
    | _ :: _ => join sep init ++ (sep :: segment)
    end.
Proof.
  induction init as [|first init IH]; [done|].
  destruct init as [|next init]; [done|].
  change (join sep ((first :: next :: init) ++ [segment]))
    with (first ++ sep :: join sep ((next :: init) ++ [segment])).
  rewrite IH.
  change (join sep (first :: next :: init))
    with (first ++ sep :: join sep (next :: init)).
  by rewrite <- app_assoc.
Qed.

(** The last segment of a path and what precedes it. *)
Lemma split_last sep s :
  ∃ init segment,
    split sep s = init ++ [segment]
    ∧ pop (split sep s) = Some segment
    ∧ (sep ∉ segment)
    ∧ s = match init with
          | [] => segment
          | _ :: _ => join sep init ++ (sep :: segment)
          end.
Proof.
  destruct (exists_last (split_nonempty sep s)) as (init & segment & Hsplit).
  exists init, segment. rewrite Hsplit. split; [done|].
  split; [apply last_snoc|]. split.
  - apply (split_no_sep sep s). rewrite Hsplit. set_solver.
  - rewrite <- join_snoc, <- Hsplit. symmetry. apply join_split.
Qed.

(** The title of a card is empty only for a project with no label and an
    empty path. *)
Theorem cardTitle_empty (project : Project) :
  cardTitle project = []
  ↔ truthy_opt (label project) = false ∧ normalizedPath project = [].
Proof.
  unfold cardTitle.
  destruct (label project) as [[|c l]|] eqn:Hlabel; cbn [truthy_opt truthy];
    try (split; [done | by intros [? ?]]).
  all: destruct (split_last slash (normalizedPath project))
         as (init & segment & _ & -> & _ & Hpath);
       cbn [truthy_opt default];
       destruct segment as [|c segment]; cbn [truthy];
       try (split; [done | by intros [_ ->]]);
       split; try done; intros [_ Hnil]; rewrite Hnil in Hpath;
       destruct init; try done; by destruct (join slash (l :: init)).
Qed.

(** Without a label the title is the last segment of the normalized path,
    which contains no slash; when that segment is empty (the path is empty
    or ends with a slash) the title is the whole path. *)
Theorem cardTitle_last_segment (project : Project) :
  truthy_opt (label project) = false →
  (cardTitle project = normalizedPath project
   ∧ (normalizedPath project = []
      ∨ ∃ dir, normalizedPath project = dir ++ [slash]))
  ∨ (cardTitle project ≠ []
     ∧ (slash ∉ cardTitle project)
     ∧ (normalizedPath project = cardTitle project
        ∨ ∃ dir,
            normalizedPath project = dir ++ (slash :: cardTitle project))).
Proof.
  intros Hlabel. unfold cardTitle. rewrite Hlabel.
  destruct (split_last slash (normalizedPath project))
    as (init & segment & _ & -> & Hsep & Hpath).
  cbn [truthy_opt default].
  destruct segment as [|c segment]; cbn [truthy].
  - left. split; [done|]. destruct init; [by left|]. right. eauto.
  - right. split; [done|]. split; [done|].
    destruct init; [by left|]. right. eauto.
Qed.

Lemma cardTitle_last_segment_witness :
  (cardTitle projectA = normalizedPath projectA
   ∧ (normalizedPath projectA = []
      ∨ ∃ dir, normalizedPath projectA = dir ++ [slash]))
  ∨ (cardTitle projectA ≠ []
     ∧ (slash ∉ cardTitle projectA)
     ∧ (normalizedPath projectA = cardTitle projectA
        ∨ ∃ dir,
            normalizedPath projectA = dir ++ (slash :: cardTitle projectA))).
Proof. apply (cardTitle_last_segment projectA). reflexivity. Defined.

Example cardTitle_of_path : cardTitle projectA = lit "a".
Proof. reflexivity. Qed.

End BranchPickerDialogPartsProofs.
